(** * Chow ring ideals of matroids: generator builders and Groebner engines

    A shallow embedding of [sage/matroids/chow_ring_ideal.py]: the three
    ideal classes [ChowRingIdeal_nonaug], [AugmentedChowRingIdeal_fy] and
    [AugmentedChowRingIdeal_atom_free], their constructors, their
    [_gens_constructor] methods and their [groebner_basis] methods.

    The matroid and the polynomial ring are collaborators of the module.
    The matroid is a record of the three methods the module calls; the
    polynomial ring is a type class of the operations the module uses, with
    one concrete instance (integer coefficients) to run the code on. *)

From stdpp Require Import gmap strings list sorting.
From Stdlib Require Import ZArith Lia.

(** ** Python outcomes *)

(** The exceptions the modelled statements can raise. *)
Inductive exn : Type :=
  | KeyError
  | IndexError
  | ValueError
  | NotImplementedError.

(** A Python call either returns a value or raises. *)
Inductive py (A : Type) : Type :=
  | Ret (a : A)
  | Raise (e : exn).
Arguments Ret {A} a.
Arguments Raise {A} e.

Global Instance py_ret : MRet py := λ A a, Ret a.
Global Instance py_bind : MBind py := λ A B f m,
  match m with
  | Ret a => f a
  | Raise e => Raise e
  end.

Definition raises {A} (m : py A) : Prop := ∃ e, m = Raise e.

(** [for x in xs: s = body(x, s)], stopping at the first exception. *)
Fixpoint for_each {A S} (xs : list A) (body : A → S → py S) (s : S) : py S :=
  match xs with
  | [] => Ret s
  | x :: xs' => s' ← body x s; for_each xs' body s'
  end.

(** [t[i]] on a tuple or list. *)
Definition py_index {A} (t : list A) (i : nat) : py A :=
  match t !! i with
  | Some a => Ret a
  | None => Raise IndexError
  end.

(** [range(a, b)]. *)
Definition py_range (a b : Z) : list Z :=
  map (λ k : nat, (a + Z.of_nat k)%Z) (seq 0 (Z.to_nat (b - a))).

(** [list(enumerate(l))]. *)
Definition enumerate {A} (l : list A) : list (nat * A) :=
  imap (λ i x, (i, x)) l.

(** ** Python dictionaries

    A [dict] keeps its keys in insertion order, and [list(d)] and
    [d.keys()] read that order, so a dictionary is an association list:
    assigning to a key already present overwrites the value in place. *)

Section Dict.
Context {K V : Type} `{EqDecision K}.

Definition dict : Type := list (K * V).

Fixpoint dict_set (k : K) (v : V) (d : dict) : dict :=
  match d with
  | [] => [(k, v)]
  | (k', v') :: d' =>
      if decide (k = k') then (k', v) :: d' else (k', v') :: dict_set k v d'
  end.

Fixpoint dict_lookup (d : dict) (k : K) : option V :=
  match d with
  | [] => None
  | (k', v') :: d' => if decide (k = k') then Some v' else dict_lookup d' k
  end.

(** [d[k]] *)
Definition dict_get (d : dict) (k : K) : py V :=
  match dict_lookup d k with
  | Some v => Ret v
  | None => Raise KeyError
  end.

(** [dict(pairs)] *)
Definition dict_of (pairs : list (K * V)) : dict :=
  fold_left (λ d kv, dict_set kv.1 kv.2 d) pairs [].

(** [list(d)], [d.keys()] *)
Definition dict_keys (d : dict) : list K := map fst d.
End Dict.
Arguments dict K V : clear implicits.

(** ** The polynomial ring substrate

    What the module asks of a polynomial ring and of its elements:
    [zero()], [one()], [+], [-], [*], [**], the generators [gens()[i]] and
    the comparison with [zero()]. *)

Class PolyRing (P : Type) : Type := {
  pzero : P;
  pone : P;
  padd : P → P → P;
  psub : P → P → P;
  pmul : P → P → P;
  ppow : P → Z → P;
  pgen : nat → P;
  p_is_zero : P → bool
}.

Section Substrate.
Context {P : Type} `{PolyRing P}.

(** [poly_ring.gens()] of a ring built with [n] variable names. *)
Definition ring_gens (n : nat) : list P := map pgen (seq 0 n).

(** [term = zero; for p in ps: term += p], also the builtin [sum]. *)
Definition psum (ps : list P) : P := fold_left padd ps pzero.

(** [term = one; for p in ps: term *= p]. *)
Definition pprod (ps : list P) : P := fold_left pmul ps pone.
End Substrate.

(** What [groebner_basis] hands back: a polynomial sequence, or [None] when
    the method falls off its end without a [return]. *)
Inductive pyvalue (P : Type) : Type :=
  | PyNone
  | PySequence (polys : list P).
Arguments PyNone {P}.
Arguments PySequence {P} polys.

(** ** The matroid collaborator *)

Section Matroid.
Context {L : Type} `{Countable L}.

(** A flat is a [frozenset] of groundset labels, a [gset L].
    [groundset] is [list(M.groundset())], [rank] is [M.rank(X)] and
    [flats] is [M.flats(i)] in its iteration order. *)
Record Matroid : Type := {
  groundset : list L;
  rank : gset L → Z;
  flats : Z → list (gset L)
}.

(** [M.rank()] without an argument is the rank of the groundset. *)
Definition full_rank (M : Matroid) : Z := rank M (list_to_set (groundset M)).

(** [[X for i in range(1, M.rank()) for X in M.flats(i)]] *)
Definition proper_flats (M : Matroid) : list (gset L) :=
  flat_map (flats M) (py_range 1 (full_rank M)).

(** [F < G] on frozensets. *)
Definition flat_lt (F G : gset L) : bool := bool_decide (F ⊂ G).
(** [F >= G], [F.issubset(G)] the other way round. *)
Definition flat_ge (F G : gset L) : bool := bool_decide (G ⊆ F).
(** [x in F] *)
Definition flat_mem (x : L) (F : gset L) : bool := bool_decide (x ∈ F).
(** [not (F < G or G < F)] *)
Definition not_nested (F G : gset L) : bool :=
  negb (flat_lt F G || flat_lt G F).
End Matroid.
Arguments Matroid L {_ _}.

(** ** Helpers shared by the three classes *)

(** [out = []; for x in xs: out.extend(body(x))]: a loop whose only effect
    is to append to one output list. *)
Fixpoint collect {A B} (xs : list A) (body : A → py (list B)) : py (list B) :=
  match xs with
  | [] => Ret []
  | x :: xs' => ys ← body x; zs ← collect xs' body; Ret (ys ++ zs)
  end.

(** [itertools.combinations(l, r)], in its lexicographic order. *)
Fixpoint combinations {A} (l : list A) (r : nat) {struct l} : list (list A) :=
  match r, l with
  | O, _ => [[]]
  | S _, [] => []
  | S r', x :: l' => map (cons x) (combinations l' r') ++ combinations l' r
  end.

(** [l.remove(x)] guarded by [x in l]: drops the first occurrence. *)
Fixpoint remove_first {A} `{EqDecision A} (x : A) (l : list A) : list A :=
  match l with
  | [] => []
  | y :: l' => if decide (x = y) then l' else y :: remove_first x l'
  end.

Section FlatsContaining.
Context {L : Type} `{Countable L}.

(** [{x: [] for x in E}] *)
Definition flats_containing_init {A} (E : list L) : gmap L (list A) :=
  list_to_map (map (λ x, (x, [])) E).

(** [flats_containing[x].append(a)] *)
Definition fc_append {A} (x : L) (a : A) (fc : gmap L (list A))
  : py (gmap L (list A)) :=
  match fc !! x with
  | Some l => Ret (<[x := l ++ [a]]> fc)
  | None => Raise KeyError
  end.

(** [flats_containing[x]] *)
Definition fc_get {A} (fc : gmap L (list A)) (x : L) : py (list A) :=
  match fc !! x with
  | Some l => Ret l
  | None => Raise KeyError
  end.

(** [for a, F in entries: for x in F: flats_containing[x].append(a)],
    where [a] is the index of [F] or [F] itself. *)
Definition build_flats_containing {A} (E : list L) (entries : list (A * gset L))
  : py (gmap L (list A)) :=
  for_each entries
    (λ '(a, F) fc, for_each (elements F) (λ x fc', fc_append x a fc') fc)
    (flats_containing_init E).

(** [sorted(subset, key=len)]: the stable sort by cardinality. *)
Fixpoint insert_by_len (F : gset L) (l : list (gset L)) : list (gset L) :=
  match l with
  | [] => [F]
  | G :: l' =>
      if (size F <=? size G)%nat then F :: l else G :: insert_by_len F l'
  end.

Definition sorted_by_len (l : list (gset L)) : list (gset L) :=
  fold_right insert_by_len [] l.

(** The first loop of the engine: [flag] becomes [False] when two neighbours
    of the sorted list have the same cardinality. *)
Fixpoint adjacent_same_len (s : list (gset L)) : bool :=
  match s with
  | F :: (G :: _) as s' => (size G =? size F)%nat || adjacent_same_len s'
  | _ => false
  end.

(** The second loop: [flag] becomes [False] when, for some [j < k],
    [s[j] != s[k]] and [s[j].issubset(s[k])]. *)
Fixpoint has_nested_pair (s : list (gset L)) : bool :=
  match s with
  | [] => false
  | F :: s' =>
      existsb (λ G, bool_decide (F ≠ G) && bool_decide (F ⊆ G)) s'
      || has_nested_pair s'
  end.
End FlatsContaining.

(** ** The three ideal classes *)

Section Ideals.
Context {L : Type} `{Countable L} {P : Type} `{PolyRing P}.

(** [MPolynomialIdeal.groebner_basis], the generic procedure of the
    substrate that the subclasses reach through [super()]. *)
Variable generic_groebner_basis : list P → list P.

(** *** Which function [I.groebner_basis] names

    [MPolynomialIdeal.groebner_basis] is a cached method. When
    [super().groebner_basis()] runs on an instance, the cache stores the
    generic method in the instance under the name [groebner_basis]; from
    then on [I.groebner_basis(...)] reaches the generic method and the
    method of the class of [I] no longer runs on that instance. *)
Inductive binding : Type :=
  | ClassMethod      (* as [__init__] leaves the instance *)
  | GenericCached.   (* once [super().groebner_basis()] has run on it *)

(** The generic method as the instance reaches it once it is cached, given
    the generators of the ideal and the selector. *)
Variable generic_cached_method : list P → string → py (pyvalue P).

(** The binding after a call [I.groebner_basis(algorithm)]: of the
    branches of the three methods only [algorithm == 'constructed'] calls
    [super().groebner_basis()]. *)
Definition binding_after (b : binding) (algorithm : string) : binding :=
  match b with
  | ClassMethod =>
      if String.eqb algorithm "constructed" then GenericCached
      else ClassMethod
  | GenericCached => GenericCached
  end.

(** The binding of an instance after the calls of [history], oldest first,
    starting from [__init__]. *)
Definition after_calls (history : list string) : binding :=
  fold_left binding_after history ClassMethod.

(** [I.groebner_basis(algorithm)] on an instance with the binding [b]: the
    outcome of the call and the binding it leaves. [method] is the method
    of the class of [I], [gens] the generators of [I]. *)
Definition call_groebner_basis (method : string → py (pyvalue P))
    (gens : list P) (b : binding) (algorithm : string)
  : py (pyvalue P) * binding :=
  (match b with
   | ClassMethod => method algorithm
   | GenericCached => generic_cached_method gens algorithm
   end,
   binding_after b algorithm).

(** [term = zero; for G in flats: if keep(G): term += flats_gen[G]] *)
Definition sum_over {K} `{EqDecision K} (d : dict K P) (key : gset L → K)
    (keep : gset L → bool) (fl : list (gset L)) : py P :=
  for_each fl
    (λ G term, if keep G then xG ← dict_get d (key G); Ret (padd term xG)
               else Ret term)
    pzero.

(** [term = one; for x in subset: term *= flats_gen[x]] *)
Definition product_of (d : dict (gset L) P) (subset : list (gset L)) : py P :=
  for_each subset (λ x term, xx ← dict_get d x; Ret (pmul term xx)) pone.

(** *** [ChowRingIdeal_nonaug] *)

(** The fields of an instance: [_matroid], [_flats_generator], the number
    of variables of [ring()] and [gens()]. *)
Record ChowRingIdeal_nonaug : Type := {
  na_matroid : Matroid L;
  na_flats_generator : dict (gset L) P;
  na_ring : nat;
  na_gens : list P
}.

(** [sum(gens[i] for i in flats_containing[x])] *)
Definition sum_gens_at (fc : gmap L (list nat)) (gens : list P) (x : L)
  : py P :=
  idx ← fc_get fc x; ps ← mapM (py_index gens) idx; Ret (psum ps).

(** The index pairs of the comprehension that builds [Q]:
    [for i, F in enumerate(flats) for j, G in enumerate(flats[i+1:])
     if not (F < G or G < F)]. *)
Definition nonaug_quadratic_pairs (fl : list (gset L)) : list (nat * nat) :=
  flat_map
    (λ '(i, F),
       flat_map (λ '(j, G), if not_nested F G then [(i, j)] else [])
                (enumerate (drop (i + 1) fl)))
    (enumerate fl).

(** The pairs of the comprehension that builds [L]:
    [for j, x in enumerate(E) for y in E[j+1:]]. *)
Definition nonaug_linear_pairs (E : list L) : list (L * L) :=
  flat_map (λ '(j, x), map (λ y, (x, y)) (drop (j + 1) E)) (enumerate E).

(** [ChowRingIdeal_nonaug._gens_constructor(self, poly_ring)] *)
Definition nonaug_gens_constructor (M : Matroid L)
    (flats_generator : dict (gset L) P) (poly_ring : nat) : py (list P) :=
  let E := groundset M in
  let fl := dict_keys flats_generator in
  fc ← build_flats_containing E (enumerate fl);
  let gens := ring_gens poly_ring in
  Q ← mapM (λ '(i, j), gi ← py_index gens i;
                        gj ← py_index gens (i + j + 1);
                        Ret (pmul gi gj))
           (nonaug_quadratic_pairs fl);
  Lin ← mapM (λ '(x, y), sx ← sum_gens_at fc gens x;
                          sy ← sum_gens_at fc gens y;
                          Ret (psub sx sy))
             (nonaug_linear_pairs E);
  Ret (Q ++ Lin).

(** [ChowRingIdeal_nonaug.__init__(self, M, R)]. The ring has one variable
    per entry of [flats], whichever of the two naming schemes succeeds. *)
Definition nonaug_init (M : Matroid L) : py ChowRingIdeal_nonaug :=
  let fl := proper_flats M in
  let poly_ring := length fl in
  let gens := ring_gens poly_ring in
  let flats_generator := dict_of (zip fl gens) in
  g ← nonaug_gens_constructor M flats_generator poly_ring;
  Ret {| na_matroid := M; na_flats_generator := flats_generator;
         na_ring := poly_ring; na_gens := g |}.

(** [subsets]: every combination of every size, by increasing size. *)
Definition all_subsets (fl : list (gset L)) : list (list (gset L)) :=
  flat_map (combinations fl) (seq 0 (length fl + 1)).

(** [term = zero; for G in flats: if G >= F: term += flats_gen[G]] *)
Definition sum_flats_ge (d : dict (gset L) P) (fl : list (gset L))
    (F : gset L) : py P :=
  sum_over d id (λ G, flat_ge G F) fl.

(** What one pass of the loop [for subset in subsets] appends to [gb]. *)
Definition nonaug_subset_terms (d : dict (gset L) P) (fl : list (gset L))
    (ranks : dict (gset L) Z) (subset : list (gset L)) : py (list P) :=
  let sorted_list := sorted_by_len subset in
  if adjacent_same_len sorted_list then
    term ← product_of d subset; Ret [term]
  else if bool_decide (subset = []) then
    collect fl (λ F, term ← sum_flats_ge d fl F;
                     rF ← dict_get ranks F;
                     Ret [ppow term rF])
  else if has_nested_pair sorted_list then Ret []
  else
    collect fl (λ F,
      if flat_lt (⋃ sorted_list) F then
        term ← product_of d subset;
        term1 ← sum_flats_ge d fl F;
        if p_is_zero term1 then Ret []
        else
          rF ← dict_get ranks F;
          top ← py_index sorted_list (length subset - 1);
          rtop ← dict_get ranks top;
          Ret [pmul term (ppow term1 (rF - rtop))]
      else Ret []).

(** The branch [algorithm == ''] of
    [ChowRingIdeal_nonaug.groebner_basis]. *)
Definition nonaug_combinatorial (I : ChowRingIdeal_nonaug) : py (list P) :=
  let fl0 := dict_keys (na_flats_generator I) in
  let fl := if bool_decide (∅ ∈ fl0) then remove_first ∅ fl0 else fl0 in
  let ranks := dict_of (map (λ F, (F, rank (na_matroid I) F)) fl) in
  collect (all_subsets fl) (nonaug_subset_terms (na_flats_generator I) fl ranks).

(** [ChowRingIdeal_nonaug.groebner_basis(self, algorithm)]: what the
    method of the class returns when it is the one that runs, that is on an
    instance with the binding [ClassMethod]. The body reads the fields of
    the instance only; its effect on the instance is [binding_after]. The
    ring of this class has one variable for every proper flat, so none
    below rank 2 and at least two from rank 2 on: it is never the
    univariate ring, and [PolynomialSequence(R, [gb])] is [PySequence]. *)
Definition nonaug_groebner_basis (I : ChowRingIdeal_nonaug)
    (algorithm : string) : py (pyvalue P) :=
  if String.eqb algorithm "" then
    gb ← nonaug_combinatorial I; Ret (PySequence gb)
  else if String.eqb algorithm "constructed" then
    let _ := generic_groebner_basis (na_gens I) in Ret PyNone
  else Ret PyNone.

(** [I.groebner_basis(algorithm)] for [I] of this class. *)
Definition nonaug_call (I : ChowRingIdeal_nonaug) (b : binding)
    (algorithm : string) : py (pyvalue P) * binding :=
  call_groebner_basis (nonaug_groebner_basis I) (na_gens I) b algorithm.

(** *** [AugmentedChowRingIdeal_fy] *)

(** The keys of [_flats_generator] are groundset elements and flats, two
    different Python types in one dictionary. *)
Record AugmentedChowRingIdeal_fy : Type := {
  fy_matroid : Matroid L;
  fy_flats : list (gset L);
  fy_flats_generator : dict (L + gset L) P;
  fy_ring : nat;
  fy_gens : list P
}.

(** The terms [_gens_constructor] appends to [Q]. *)
Definition fy_quadratic (fl : list (gset L)) (d : dict (L + gset L) P)
  : py (list P) :=
  collect fl (λ F,
    collect fl (λ G,
      if not_nested F G then
        xF ← dict_get d (inr F); xG ← dict_get d (inr G); Ret [pmul xF xG]
      else Ret [])).

(** The linear form [_gens_constructor] appends to [L] for the element
    [x]. *)
Definition fy_linear_form (fl : list (gset L)) (d : dict (L + gset L) P)
    (fc : gmap L (list (gset L))) (x : L) : py P :=
  term ← for_each fl
    (λ F term, Fx ← fc_get fc x;
               if bool_decide (F ∈ Fx) then Ret term
               else xF ← dict_get d (inr F); Ret (padd term xF))
    pzero;
  yx ← dict_get d (inl x);
  Ret (psub yx term).

(** [AugmentedChowRingIdeal_fy._gens_constructor(self, poly_ring)] *)
Definition fy_gens_constructor (M : Matroid L) (fl : list (gset L))
    (d : dict (L + gset L) P) (poly_ring : nat) : py (list P) :=
  let E := groundset M in
  fc ← build_flats_containing E ((λ F, (F, F)) <$> fl);
  Q ← fy_quadratic fl d;
  Lin ← mapM (fy_linear_form fl d fc) E;
  Ret (Q ++ Lin).

(** The two loops of [__init__] that fill [_flats_generator]:
    [for i, x in enumerate(E): d[x] = gens[i]] and
    [for i, F in enumerate(flats): d[F] = gens[len(E) + i]]. *)
Definition fy_fill_dict (E : list L) (fl : list (gset L)) (gens : list P)
  : py (dict (L + gset L) P) :=
  d1 ← for_each (enumerate E)
         (λ '(i, x) d, g ← py_index gens i; Ret (dict_set (inl x) g d)) [];
  for_each (enumerate fl)
    (λ '(i, F) d, g ← py_index gens (length E + i);
                  Ret (dict_set (inr F) g d)) d1.

(** [AugmentedChowRingIdeal_fy.__init__(self, M, R)] *)
Definition fy_init (M : Matroid L) : py AugmentedChowRingIdeal_fy :=
  let fl := proper_flats M in
  let E := groundset M in
  let poly_ring := (length E + length fl)%nat in
  let gens := ring_gens poly_ring in
  d ← fy_fill_dict E fl gens;
  g ← fy_gens_constructor M fl d poly_ring;
  Ret {| fy_matroid := M; fy_flats := fl; fy_flats_generator := d;
         fy_ring := poly_ring; fy_gens := g |}.

(** The statement of the engine that appended a term: the line of
    [gb.append] inside [AugmentedChowRingIdeal_fy.groebner_basis]. *)
Inductive fy_origin : Type :=
  | FyNonNested     (* line 438, under [if not (F < G or G < F)] *)
  | Fy57            (* line 448, under [if term != zero] *)
  | Fy56            (* line 450, under [if term1 != zero] *)
  | FyElementIn     (* line 454, under [if i in G] *)
  | FyElementNotIn  (* line 457, under [elif not i in G] *)
  | FyNested.       (* line 460, under [elif G < F] *)

Global Instance fy_origin_eq_dec : EqDecision fy_origin.
Proof. solve_decision. Defined.

(** The body of [for i in E] for given [F] and [G]: each appended term
    with the statement that appended it. *)
Definition fy_element_terms (M : Matroid L) (fl : list (gset L))
    (d : dict (L + gset L) P) (F G : gset L) (i : L)
  : py (list (fy_origin * P)) :=
  '(term, term1) ← for_each fl
    (λ Hf '(term, term1),
       term' ← (if flat_mem i Hf then xH ← dict_get d (inr Hf);
                                       Ret (padd term xH)
                else Ret term);
       term1' ← (if flat_lt G Hf then xH ← dict_get d (inr Hf);
                                       Ret (padd term1 xH)
                 else Ret term1);
       Ret (term', term1'))
    (pzero, pzero);
  a ← (if p_is_zero term then Ret []
       else yi ← dict_get d (inl i); Ret [(Fy57, padd yi term)]);
  b ← (if p_is_zero term1 then Ret []
       else Ret [(Fy56, padd (ppow term1 (rank M G)) pone)]);
  c ← (if flat_mem i G then
         if p_is_zero term1 then Ret []
         else yi ← dict_get d (inl i);
              Ret [(FyElementIn, pmul yi (ppow term1 (rank M G)))]
       else if negb (flat_mem i G) then
         yi ← dict_get d (inl i); xF ← dict_get d (inr F);
         Ret [(FyElementNotIn, pmul yi xF)]
       else if flat_lt G F then
         xG ← dict_get d (inr G);
         Ret [(FyNested, pmul xG (ppow term1 (rank M F - rank M G)))]
       else Ret []);
  Ret (a ++ b ++ c).

(** The branch [algorithm == ''] of
    [AugmentedChowRingIdeal_fy.groebner_basis], every term with its
    origin. *)
Definition fy_combinatorial_traced (I : AugmentedChowRingIdeal_fy)
  : py (list (fy_origin * P)) :=
  let M := fy_matroid I in
  let E := groundset M in
  let d := fy_flats_generator I in
  let fl := fy_flats I in
  collect fl (λ F,
    collect fl (λ G,
      q ← (if not_nested F G then
             xF ← dict_get d (inr F); xG ← dict_get d (inr G);
             Ret [(FyNonNested, pmul xF xG)]
           else Ret []);
      r ← collect E (fy_element_terms M fl d F G);
      Ret (q ++ r))).

Definition fy_combinatorial (I : AugmentedChowRingIdeal_fy) : py (list P) :=
  gb ← fy_combinatorial_traced I; Ret (map snd gb).

(** [PolynomialSequence(poly_ring, [gb])] for the ring of this class. A
    ring with one variable name is built as a univariate ring, and for it
    the constructor of sequences raises [NotImplementedError]. The ring of
    this class has one variable for the matroid with one element and no
    proper flat. *)
Definition fy_polynomial_sequence (poly_ring : nat) (gb : list P)
  : py (pyvalue P) :=
  if Nat.eqb poly_ring 1 then Raise NotImplementedError
  else Ret (PySequence gb).

(** [AugmentedChowRingIdeal_fy.groebner_basis(self, algorithm)]: what the
    method of the class returns when it is the one that runs, that is on an
    instance with the binding [ClassMethod]. *)
Definition fy_groebner_basis (I : AugmentedChowRingIdeal_fy)
    (algorithm : string) : py (pyvalue P) :=
  if String.eqb algorithm "" then
    gb ← fy_combinatorial I; fy_polynomial_sequence (fy_ring I) gb
  else if String.eqb algorithm "constructed" then
    let _ := generic_groebner_basis (fy_gens I) in Ret PyNone
  else Ret PyNone.

(** [I.groebner_basis(algorithm)] for [I] of this class. *)
Definition fy_call (I : AugmentedChowRingIdeal_fy) (b : binding)
    (algorithm : string) : py (pyvalue P) * binding :=
  call_groebner_basis (fy_groebner_basis I) (fy_gens I) b algorithm.

(** *** [AugmentedChowRingIdeal_atom_free] *)

Record AugmentedChowRingIdeal_atom_free : Type := {
  af_matroid : Matroid L;
  af_flats : list (gset L);
  af_flats_generator : dict (gset L) P;
  af_ring : nat;
  af_gens : list P
}.

(** [term = zero; for H in flats_containing[x]: term += flats_gen[H]] *)
Definition af_sum_containing (d : dict (gset L) P)
    (fc : gmap L (list (gset L))) (x : L) : py P :=
  Fx ← fc_get fc x; sum_over d id (λ _, true) Fx.

(** [AugmentedChowRingIdeal_atom_free._gens_constructor(self, poly_ring)] *)
Definition af_gens_constructor (M : Matroid L) (fl : list (gset L))
    (d : dict (gset L) P) (poly_ring : nat) : py (list P) :=
  let E := groundset M in
  fc ← build_flats_containing E ((λ F, (F, F)) <$> fl);
  collect fl (λ F,
    collect fl (λ G,
      q ← (if negb (flat_lt F G || flat_lt G F) then
             xF ← dict_get d F; xG ← dict_get d G; Ret [pmul xF xG]
           else Ret []);
      r ← collect E (λ x,
             term ← af_sum_containing d fc x;
             Fx ← fc_get fc x;
             if bool_decide (F ∈ Fx) then Ret [ppow term 2]
             else term' ← af_sum_containing d fc x;
                  xF ← dict_get d F;
                  Ret [ppow term 2; pmul xF term']);
      Ret (q ++ r))).

(** [AugmentedChowRingIdeal_atom_free.__init__(self, M, R)]; the
    [flats_containing] it builds is not used afterwards. *)
Definition af_init (M : Matroid L) : py AugmentedChowRingIdeal_atom_free :=
  let fl := proper_flats M in
  let E := groundset M in
  _ ← build_flats_containing E (enumerate fl);
  let poly_ring := length fl in
  let gens := ring_gens poly_ring in
  let flats_generator := dict_of (zip fl gens) in
  g ← af_gens_constructor M fl flats_generator poly_ring;
  Ret {| af_matroid := M; af_flats := fl;
         af_flats_generator := flats_generator;
         af_ring := poly_ring; af_gens := g |}.

(** The branch [algorithm == ''] of
    [AugmentedChowRingIdeal_atom_free.groebner_basis]. *)
Definition af_combinatorial (I : AugmentedChowRingIdeal_atom_free)
  : py (list P) :=
  let M := af_matroid I in
  let d := af_flats_generator I in
  let fl0 := proper_flats M in
  let fl := if bool_decide (∅ ∈ fl0) then remove_first ∅ fl0 else fl0 in
  collect fl (λ F,
    collect fl (λ G,
      if negb (flat_lt G F || flat_lt F G) then
        xF ← dict_get d F; xG ← dict_get d G; Ret [pmul xF xG]
      else if flat_lt F G then
        term ← sum_over d id (λ Hf, flat_lt Hf F) fl;
        if p_is_zero term then Ret []
        else xF ← dict_get d F;
             Ret [pmul (pmul xF (ppow term (rank M G)))
                       (ppow term (rank M G - rank M F))]
      else Ret [])).

(** [AugmentedChowRingIdeal_atom_free.groebner_basis(self, algorithm)]:
    what the method of the class returns when it is the one that runs, that
    is on an instance with the binding [ClassMethod]. As for the
    non-augmented class the ring is never the univariate ring. *)
Definition af_groebner_basis (I : AugmentedChowRingIdeal_atom_free)
    (algorithm : string) : py (pyvalue P) :=
  if String.eqb algorithm "" then
    gb ← af_combinatorial I; Ret (PySequence gb)
  else if String.eqb algorithm "constructed" then
    let _ := generic_groebner_basis (af_gens I) in Ret PyNone
  else Ret PyNone.

(** [I.groebner_basis(algorithm)] for [I] of this class. *)
Definition af_call (I : AugmentedChowRingIdeal_atom_free) (b : binding)
    (algorithm : string) : py (pyvalue P) * binding :=
  call_groebner_basis (af_groebner_basis I) (af_gens I) b algorithm.

End Ideals.

(** ** A polynomial ring to run the code on: integer coefficients

    A monomial is the sorted list of its variables, with repetition; a
    polynomial is the list of its terms, sorted by monomial, without zero
    coefficients. Every operation returns this normal form, so that two
    polynomials are equal exactly when their lists are. *)

Module ZPoly.

Definition mono : Type := list nat.
Definition poly : Type := list (mono * Z).

Fixpoint mono_cmp (a b : mono) : comparison :=
  match a, b with
  | [], [] => Eq
  | [], _ :: _ => Lt
  | _ :: _, [] => Gt
  | x :: a', y :: b' =>
      match Nat.compare x y with
      | Eq => mono_cmp a' b'
      | c => c
      end
  end.

Fixpoint mono_ins (x : nat) (m : mono) : mono :=
  match m with
  | [] => [x]
  | y :: m' => if (x <=? y)%nat then x :: m else y :: mono_ins x m'
  end.

Definition mono_mul (a b : mono) : mono := fold_right mono_ins b a.

(** Adds the term [c * m] to a polynomial in normal form. *)
Fixpoint add_term (m : mono) (c : Z) (p : poly) : poly :=
  match p with
  | [] => if (c =? 0)%Z then [] else [(m, c)]
  | (m', c') :: q =>
      match mono_cmp m m' with
      | Lt => if (c =? 0)%Z then p else (m, c) :: p
      | Eq => if (c + c' =? 0)%Z then q else (m', (c + c')%Z) :: q
      | Gt => (m', c') :: add_term m c q
      end
  end.

Definition zero : poly := [].
Definition one : poly := [([], 1%Z)].
Definition gen (i : nat) : poly := [([i], 1%Z)].

Definition add (p q : poly) : poly :=
  fold_right (λ t acc, add_term t.1 t.2 acc) q p.

Definition opp (p : poly) : poly := map (λ t, (t.1, (- t.2)%Z)) p.

Definition sub (p q : poly) : poly := add p (opp q).

Definition mul_term (m : mono) (c : Z) (q : poly) : poly :=
  fold_right (λ t acc, add_term (mono_mul m t.1) (c * t.2)%Z acc) [] q.

Definition mul (p q : poly) : poly :=
  fold_right (λ t acc, add (mul_term t.1 t.2 q) acc) [] p.

(** [p ** e]. The module raises to rank differences, which are not
    negative on the flats of a matroid; a negative exponent, which leaves
    the polynomial ring in Sage, is read as the exponent [0] here. *)
Definition pow (p : poly) (e : Z) : poly := Nat.iter (Z.to_nat e) (mul p) one.

Definition is_zero (p : poly) : bool :=
  match p with
  | [] => true
  | _ :: _ => false
  end.

(** The generic procedure of the substrate is a parameter of the three
    [groebner_basis] methods, and they never use its result. To run the
    methods the parameter is filled with the identity. *)
Definition generic_stand_in (gens : list poly) : list poly := gens.

(** The cached generic method is a parameter of the calls as well. An
    instance that [__init__] has just built does not reach it; to run calls
    the parameter is filled with the method that hands back the generators. *)
Definition generic_cached_stand_in (gens : list poly) (algorithm : string)
  : py (pyvalue poly) := Ret (PySequence (generic_stand_in gens)).

Global Instance poly_ring : PolyRing poly := {|
  pzero := zero; pone := one; padd := add; psub := sub; pmul := mul;
  ppow := pow; pgen := gen; p_is_zero := is_zero
|}.

(** *** Ideals of the ring

    [p] lies in the ideal generated by [gens] when it is a combination of
    the generators with polynomial coefficients. *)

Definition combination (cs gens : list poly) : poly :=
  fold_right add zero (zip_with mul cs gens).

Definition in_ideal (gens : list poly) (p : poly) : Prop :=
  ∃ cs : list poly, length cs = length gens ∧ combination cs gens = p.

(** Two generator sequences generate the same ideal when they have the
    same membership relation. *)
Definition same_ideal (g1 g2 : list poly) : Prop :=
  ∀ p : poly, in_ideal g1 p ↔ in_ideal g2 p.

(** *** Evaluation in the dual numbers [Z[e]/(e^2)]

    The pair [(a, b)] is [a + b e]. *)

Definition dual : Type := (Z * Z)%type.
Definition dadd (u v : dual) : dual := ((u.1 + v.1)%Z, (u.2 + v.2)%Z).
Definition dmul (u v : dual) : dual :=
  ((u.1 * v.1)%Z, (u.1 * v.2 + u.2 * v.1)%Z).
Definition dconst (c : Z) : dual := (c, 0%Z).

Definition eval_mono (ρ : nat → dual) (m : mono) : dual :=
  fold_right (λ x acc, dmul (ρ x) acc) (dconst 1) m.

Definition eval (ρ : nat → dual) (p : poly) : dual :=
  fold_right (λ t acc, dadd (dmul (dconst t.2) (eval_mono ρ t.1)) acc)
             (dconst 0) p.

End ZPoly.

(** ** Matroids to run the code on *)

Module Examples.

(** [BasisMatroid(groundset='abc', bases=['ab', 'ac'])]: rank 2, the
    elements [b] and [c] are parallel. Its flats are the empty set, [{a}],
    [{b, c}] and the groundset. *)
Definition rank_abc (X : gset string) : Z :=
  ((if bool_decide ("a" ∈ X) then 1 else 0)
   + (if bool_decide ("b" ∈ X ∨ "c" ∈ X) then 1 else 0))%Z.

Definition M_abc : Matroid string := {|
  groundset := ["a"; "b"; "c"];
  rank := rank_abc;
  flats := λ r,
    if (r =? 0)%Z then [∅]
    else if (r =? 1)%Z then [{["a"]}; {["b"; "c"]}]
    else if (r =? 2)%Z then [{["a"; "b"; "c"]}]
    else []
|}.

(** [GraphicMatroid(graphs.CycleGraph(3))]: the edges are [0], [1], [2],
    any two of them are a basis. Its flats are the empty set, the three
    singletons and the groundset. *)
Definition M_cycle3 : Matroid nat := {|
  groundset := [0; 1; 2]%nat;
  rank := λ X, Z.min (Z.of_nat (size X)) 2;
  flats := λ r,
    if (r =? 0)%Z then [∅]
    else if (r =? 1)%Z then [{[0%nat]}; {[1%nat]}; {[2%nat]}]
    else if (r =? 2)%Z then [{[0%nat; 1%nat; 2%nat]}]
    else []
|}.

(** The matroid of rank 1 on one element: its flats are the empty set and
    the groundset. *)
Definition M_point : Matroid nat := {|
  groundset := [0%nat];
  rank := λ X, Z.min (Z.of_nat (size X)) 1;
  flats := λ r,
    if (r =? 0)%Z then [∅]
    else if (r =? 1)%Z then [{[0%nat]}]
    else []
|}.

(** The matroid of rank 0 on one element, a loop: its only flat is the
    groundset. *)
Definition M_loop : Matroid nat := {|
  groundset := [0%nat];
  rank := λ _, 0%Z;
  flats := λ r, if (r =? 0)%Z then [{[0%nat]}] else []
|}.

(** The ideals the constructors build on these matroids. *)
Definition I_abc : ChowRingIdeal_nonaug := {|
  na_matroid := M_abc;
  na_flats_generator :=
    [({["a"]}, ZPoly.gen 0); ({["b"; "c"]}, ZPoly.gen 1)];
  na_ring := 2;
  na_gens := [ZPoly.mul (ZPoly.gen 0) (ZPoly.gen 1);
              ZPoly.sub (ZPoly.gen 0) (ZPoly.gen 1);
              ZPoly.sub (ZPoly.gen 0) (ZPoly.gen 1);
              ZPoly.zero]
|}.

Definition FY_abc : AugmentedChowRingIdeal_fy := {|
  fy_matroid := M_abc;
  fy_flats := [{["a"]}; {["b"; "c"]}];
  fy_flats_generator :=
    [(inl "a", ZPoly.gen 0); (inl "b", ZPoly.gen 1); (inl "c", ZPoly.gen 2);
     (inr {["a"]}, ZPoly.gen 3); (inr {["b"; "c"]}, ZPoly.gen 4)];
  fy_ring := 5;
  fy_gens := [ZPoly.mul (ZPoly.gen 3) (ZPoly.gen 3);
              ZPoly.mul (ZPoly.gen 3) (ZPoly.gen 4);
              ZPoly.mul (ZPoly.gen 4) (ZPoly.gen 3);
              ZPoly.mul (ZPoly.gen 4) (ZPoly.gen 4);
              ZPoly.sub (ZPoly.gen 0) (ZPoly.gen 4);
              ZPoly.sub (ZPoly.gen 1) (ZPoly.gen 3);
              ZPoly.sub (ZPoly.gen 2) (ZPoly.gen 3)]
|}.

Definition I_cycle3 : ChowRingIdeal_nonaug := {|
  na_matroid := M_cycle3;
  na_flats_generator :=
    [({[0%nat]}, ZPoly.gen 0); ({[1%nat]}, ZPoly.gen 1);
     ({[2%nat]}, ZPoly.gen 2)];
  na_ring := 3;
  na_gens := [ZPoly.mul (ZPoly.gen 0) (ZPoly.gen 1);
              ZPoly.mul (ZPoly.gen 0) (ZPoly.gen 2);
              ZPoly.mul (ZPoly.gen 1) (ZPoly.gen 2);
              ZPoly.sub (ZPoly.gen 0) (ZPoly.gen 1);
              ZPoly.sub (ZPoly.gen 0) (ZPoly.gen 2);
              ZPoly.sub (ZPoly.gen 1) (ZPoly.gen 2)]
|}.

Definition FY_point : AugmentedChowRingIdeal_fy := {|
  fy_matroid := M_point;
  fy_flats := [];
  fy_flats_generator := [(inl 0%nat, ZPoly.gen 0)];
  fy_ring := 1;
  fy_gens := [ZPoly.sub (ZPoly.gen 0) ZPoly.zero]
|}.

(** The basis the specification words for the 3-cycle: the three products of two
    of the variables [A0], [A1], [A2], and the product of the three. *)
Definition cycle3_claimed_basis : list ZPoly.poly :=
  [ZPoly.mul (ZPoly.gen 0) (ZPoly.gen 1);
   ZPoly.mul (ZPoly.gen 0) (ZPoly.gen 2);
   ZPoly.mul (ZPoly.gen 1) (ZPoly.gen 2);
   ZPoly.mul (ZPoly.mul (ZPoly.gen 0) (ZPoly.gen 1)) (ZPoly.gen 2)].

End Examples.

(** ** The notions the statements are written in *)

(** The number of ways to choose [k] among [n]. *)
Fixpoint choose (n k : nat) {struct n} : nat :=
  match k, n with
  | O, _ => 1
  | S _, O => 0
  | S k', S n' => choose n' k' + choose n' k
  end.

(** The position of the first [x] in [l]. *)
Fixpoint index_of {A} `{EqDecision A} (x : A) (l : list A) : nat :=
  match l with
  | [] => 0
  | y :: l' => if decide (x = y) then 0 else S (index_of x l')
  end.

Section Notions.
Context {L : Type} `{Countable L} {P : Type} `{PolyRing P}.

(** Two flats are incomparable when neither is contained in the other. *)
Definition incomparable (F G : gset L) : bool :=
  negb (bool_decide (F ⊆ G)) && negb (bool_decide (G ⊆ F)).

(** A set of flats is a chain when its members are pairwise comparable. *)
Definition is_chain (subset : list (gset L)) : Prop :=
  ∀ F G, F ∈ subset → G ∈ subset → F ⊆ G ∨ G ⊆ F.

(** The number of unordered pairs of incomparable flats, by a pairwise
    scan: every flat against the flats after it. *)
Fixpoint count_incomparable_pairs (fl : list (gset L)) : nat :=
  match fl with
  | [] => 0
  | F :: fl' => length (filter (λ G, incomparable F G) fl')
                + count_incomparable_pairs fl'
  end.

(** What the module relies on in a matroid: the groundset is a set, the
    proper flats are distinct and are subsets of the groundset. *)
Record matroid_wf (M : Matroid L) : Prop := {
  wf_groundset : NoDup (groundset M);
  wf_flats_distinct : NoDup (proper_flats M);
  wf_flats_subset :
    Forall (λ F : gset L, F ⊆ list_to_set (groundset M)) (proper_flats M)
}.

(** The positions of the flats that contain [x]. *)
Definition indices_containing (fl : list (gset L)) (x : L) : list nat :=
  map fst (filter (λ e : nat * gset L, x ∈ e.2) (enumerate fl)).

(** In the non-augmented ring the flat at position [i] has the variable
    [pgen i]: the sum of the variables of the flats that contain [x]. *)
Definition nonaug_sum_containing (fl : list (gset L)) (x : L) : P :=
  psum (map pgen (indices_containing fl x)).

(** In the augmented ring of Feitchner and Yuzvinsky the variables of the
    groundset come first: the element at position [k] of the groundset has
    [pgen k], and the flat at position [i] has [pgen (|E| + i)]. *)
Definition fy_element_var (E : list L) (x : L) : P := pgen (index_of x E).
Definition fy_flat_var (E : list L) (fl : list (gset L)) (F : gset L) : P :=
  pgen (length E + index_of F fl).

(** The linear form of the element [x]: its variable minus the sum of the
    variables of the flats that do not contain [x]. *)
Definition fy_linear_described (E : list L) (fl : list (gset L)) (x : L) : P :=
  psub (fy_element_var E x)
       (psum (map (fy_flat_var E fl) (filter (λ F, x ∉ F) fl))).

(** The quadratic part as the specification words it: one product for every
    unordered pair of incomparable flats. *)
Fixpoint fy_quadratic_unordered (E : list L) (all fl : list (gset L))
  : list P :=
  match fl with
  | [] => []
  | F :: fl' =>
      map (λ G, pmul (fy_flat_var E all F) (fy_flat_var E all G))
          (filter (λ G, incomparable F G) fl')
      ++ fy_quadratic_unordered E all fl'
  end.

(** The generator sequence as the specification words it. *)
Definition fy_gens_claimed (M : Matroid L) : list P :=
  let E := groundset M in
  let fl := proper_flats M in
  fy_quadratic_unordered E fl fl ++ map (fy_linear_described E fl) E.

(** The quadratic part as the module builds it: one product for every
    ordered pair of flats that are equal or incomparable. *)
Definition fy_quadratic_ordered (E : list L) (fl : list (gset L)) : list P :=
  flat_map
    (λ F, map (λ G, pmul (fy_flat_var E fl F) (fy_flat_var E fl G))
              (filter (λ G, F = G ∨ incomparable F G) fl))
    fl.
End Notions.

(** Every member of a list together with the members after it. *)
Fixpoint with_later {A} (l : list A) : list (A * list A) :=
  match l with
  | [] => []
  | x :: l' => (x, l') :: with_later l'
  end.


(** ** The accessor [flats_generator] of the base class [ChowRingIdeal] *)

Section Accessors.
Context {L : Type} `{Countable L} {P : Type} `{PolyRing P}.

(** [ChowRingIdeal.flats_generator(self)]: [dict(self._flats_generator)],
    a copy of the dictionary. *)
Definition nonaug_flats_generator (I : ChowRingIdeal_nonaug (L:=L) (P:=P))
  : dict (gset L) P := dict_of (na_flats_generator I).
Definition fy_flats_generator_method
    (I : AugmentedChowRingIdeal_fy (L:=L) (P:=P))
  : dict (L + gset L) P := dict_of (fy_flats_generator I).
Definition af_flats_generator_method
    (I : AugmentedChowRingIdeal_atom_free (L:=L) (P:=P))
  : dict (gset L) P := dict_of (af_flats_generator I).
End Accessors.

(** ** More notions for the statements *)

Section MoreNotions.
Context {L : Type} `{Countable L} {P : Type} `{PolyRing P}.

(** Where only the flats have variables, the flat at position [i] has the
    variable [pgen i]. *)
Definition flat_var (fl : list (gset L)) (F : gset L) : P :=
  pgen (index_of F fl).

(** The sum of the variables of the flats containing [x]. *)
Definition sum_containing (fl : list (gset L)) (x : L) : P :=
  psum (flat_var fl <$> filter (λ F, x ∈ F) fl).

(** The sum of the variables of the flats that contain the flat [F]. *)
Definition sum_above (all fl : list (gset L)) (F : gset L) : P :=
  psum (flat_var all <$> filter (λ G, F ⊆ G) fl).

(** The relations of the atom-free presentation for the element [x] and
    the flat [F]: the square of the sum over the flats containing [x],
    and, when [F] does not contain [x], [x_F] times that sum. *)
Definition af_element_relations (fl : list (gset L)) (F : gset L) (x : L)
  : list P :=
  ppow (sum_containing fl x) 2
  :: (if bool_decide (x ∈ F) then []
      else [pmul (flat_var fl F) (sum_containing fl x)]).

(** The generator sequence of the atom-free presentation: for every
    ordered pair of flats [(F, G)], the product [x_F * x_G] when the two
    are equal or incomparable, then the relations of every groundset
    element for [F]. *)
Definition af_gens_described (E : list L) (fl : list (gset L)) : list P :=
  flat_map
    (λ F, flat_map
            (λ G, (if bool_decide (F = G ∨ incomparable F G)
                   then [pmul (flat_var fl F) (flat_var fl G)] else [])
                  ++ flat_map (af_element_relations fl F) E)
            fl)
    fl.
End MoreNotions.

Section EngineNotions.
Context {L : Type} `{Countable L} {P : Type} `{PolyRing P}.

(** The flats the non-augmented and the atom-free engine loop over: the
    proper flats, without the first occurrence of the empty set if it is
    among them. *)
Definition engine_flats (pf : list (gset L)) : list (gset L) :=
  if bool_decide (∅ ∈ pf) then remove_first ∅ pf else pf.

(** What the empty subset contributes to the non-augmented engine: for
    every flat [F], the sum of the variables of the flats containing [F],
    to the power [rank(F)]. *)
Definition nonaug_empty_subset_terms (M : Matroid L) (pf : list (gset L))
  : list P :=
  (λ F, ppow (sum_above pf (engine_flats pf) F) (rank M F))
    <$> engine_flats pf.
End EngineNotions.

Section AtomFreeEngineNotions.
Context {L : Type} `{Countable L} {P : Type} `{PolyRing P}.

(** The sum of the variables of the flats strictly inside [F]. *)
Definition sum_below (all fl : list (gset L)) (F : gset L) : P :=
  psum (flat_var all <$> filter (λ G, G ⊂ F) fl).

(** The output of the atom-free engine: for every ordered pair [(F, G)]
    of flats of the engine's list, the product [x_F * x_G] when the two
    are equal or incomparable; when [F] is strictly inside [G] and the sum
    [s] over the flats strictly inside [F] is not zero, the term
    [x_F * s^rank(G) * s^(rank(G) - rank(F))]; nothing when [G] is
    strictly inside [F]. *)
Definition af_engine_described (M : Matroid L) (pf : list (gset L))
  : list P :=
  let fl := engine_flats pf in
  flat_map
    (λ F, flat_map
      (λ G, if bool_decide (F = G ∨ incomparable F G)
            then [pmul (flat_var pf F) (flat_var pf G)]
            else if bool_decide (F ⊂ G)
            then (if p_is_zero (sum_below pf fl F) then []
                  else [pmul (pmul (flat_var pf F)
                                   (ppow (sum_below pf fl F) (rank M G)))
                             (ppow (sum_below pf fl F)
                                   (rank M G - rank M F))])
            else [])
      fl)
    fl.
End AtomFreeEngineNotions.

(** A record that is not a matroid: its only proper flat has a member that
    is not in the groundset. *)
Module Strays.
Definition M_stray : Matroid nat := {|
  groundset := [0%nat];
  rank := λ _, 2%Z;
  flats := λ r, if (r =? 1)%Z then [{[5%nat]}] else []
|}.
End Strays.
(** * Properties *)

(** ** Loops that do not raise *)

Section PyLemmas.
Context {A B S : Type}.

Lemma mapM_Ret_map (f : A → py B) (g : A → B) (l : list A) :
  (∀ x, x ∈ l → f x = Ret (g x)) → mapM f l = Ret (map g l).
Proof.
  induction l as [|x l IH]; intros Hf; [reflexivity|].
  cbn. rewrite (Hf x) by left. cbn.
  rewrite IH; [reflexivity|]. intros y Hy. apply Hf. by right.
Qed.

Lemma collect_Ret_flat_map (body : A → py (list B)) (g : A → list B)
    (xs : list A) :
  (∀ x, x ∈ xs → body x = Ret (g x)) → collect xs body = Ret (flat_map g xs).
Proof.
  induction xs as [|x xs IH]; intros Hb; [reflexivity|].
  cbn. rewrite (Hb x) by left. cbn.
  rewrite IH; [reflexivity|]. intros y Hy. apply Hb. by right.
Qed.

Lemma for_each_Ret_fold (body : A → S → py S) (g : S → A → S)
    (xs : list A) (s : S) :
  (∀ x s', x ∈ xs → body x s' = Ret (g s' x)) →
  for_each xs body s = Ret (fold_left g xs s).
Proof.
  revert s. induction xs as [|x xs IH]; intros s Hb; [reflexivity|].
  cbn. rewrite (Hb x s) by left. cbn.
  apply IH. intros y s' Hy. apply Hb. by right.
Qed.

Lemma py_bind_Ret (a : A) (f : A → py B) : (Ret a ≫= f) = f a.
Proof. reflexivity. Qed.

Lemma py_index_lookup (t : list A) (i : nat) (a : A) :
  t !! i = Some a → py_index t i = Ret a.
Proof. intros Ht. unfold py_index. by rewrite Ht. Qed.
End PyLemmas.

Lemma py_range_empty (a b : Z) : (b ≤ a)%Z → py_range a b = [].
Proof.
  intros Hle. unfold py_range.
  replace (Z.to_nat (b - a)) with 0%nat by lia. reflexivity.
Qed.

Section SubstrateLemmas.
Context {P : Type} `{PolyRing P}.

Lemma length_ring_gens (n : nat) : length (ring_gens (P:=P) n) = n.
Proof. unfold ring_gens. by rewrite length_map, length_seq. Qed.

Lemma lookup_ring_gens (n i : nat) :
  (i < n)%nat → ring_gens (P:=P) n !! i = Some (pgen i).
Proof.
  intros Hi. unfold ring_gens.
  rewrite list_lookup_fmap, lookup_seq_lt by done. reflexivity.
Qed.

Lemma py_index_ring_gens (n i : nat) :
  (i < n)%nat → py_index (ring_gens (P:=P) n) i = Ret (pgen i).
Proof. intros Hi. apply py_index_lookup, lookup_ring_gens, Hi. Qed.
End SubstrateLemmas.

(** ** Enumerations and slices *)

Section Enumerate.
Context {A : Type}.

Lemma enumerate_drop_shift (pre l : list A) :
  (λ e : nat * A, (e.2, drop (e.1 + 1) (pre ++ l)))
    <$> imap (λ i x, (length pre + i, x)%nat) l
  = with_later l.
Proof.
  revert pre. induction l as [|x l IH]; intros pre; [reflexivity|].
  rewrite imap_cons. cbn [fmap list_fmap with_later fst snd].
  f_equal.
  - f_equal. rewrite Nat.add_0_r, Nat.add_1_r.
    change (x :: l) with ([x] ++ l). rewrite app_assoc.
    rewrite drop_app_length'; [done|]. rewrite length_app. cbn. lia.
  - rewrite <- (IH (pre ++ [x])). rewrite <- app_assoc. cbn.
    f_equal. apply imap_ext. intros i y _. cbn.
    rewrite length_app. cbn. f_equal. lia.
Qed.

Lemma enumerate_drop (l : list A) :
  (λ e : nat * A, (e.2, drop (e.1 + 1) l)) <$> enumerate l = with_later l.
Proof. apply (enumerate_drop_shift [] l). Qed.

Lemma elem_of_enumerate (l : list A) (i : nat) (x : A) :
  (i, x) ∈ enumerate l ↔ l !! i = Some x.
Proof.
  unfold enumerate. rewrite elem_of_lookup_imap. split.
  - intros (j & y & Heq & Hj). by simplify_eq.
  - intros Hi. by exists i, x.
Qed.

Lemma length_enumerate (l : list A) : length (enumerate l) = length l.
Proof. unfold enumerate. apply length_imap. Qed.

Lemma fmap_snd_imap (h : nat → nat) (l : list A) :
  snd <$> imap (λ i x, (h i, x)) l = l.
Proof.
  revert h. induction l as [|x l IH]; intros h; [reflexivity|].
  rewrite imap_cons. cbn. f_equal. apply (IH (h ∘ S)).
Qed.

Lemma elem_of_with_later (l : list A) (x : A) (rest : list A) :
  (x, rest) ∈ with_later l → x ∈ l ∧ rest ⊆ l.
Proof.
  induction l as [|y l IH]; cbn; [by intros ?%elem_of_nil|].
  intros [Heq|Hin]%elem_of_cons.
  - simplify_eq. split; [left| intros z Hz; by right].
  - destruct (IH Hin) as [Hx Hr]. split; [by right|].
    intros z Hz. right. by apply Hr.
Qed.
End Enumerate.

(** ** Counting *)

Lemma choose_1 (n : nat) : choose n 1 = n.
Proof. induction n as [|n IH]; [reflexivity|]. cbn. rewrite IH. by destruct n. Qed.

Lemma length_pairs_with_later {A} (l : list A) :
  length (flat_map (λ e : A * list A, map (pair e.1) e.2) (with_later l))
  = choose (length l) 2.
Proof.
  induction l as [|x l IH]; [reflexivity|].
  cbn [with_later flat_map fst snd length].
  rewrite length_app, length_map, IH.
  change (choose (S (length l)) 2)
    with (choose (length l) 1 + choose (length l) 2)%nat.
  by rewrite choose_1.
Qed.

(** ** Dictionaries *)

Section DictLemmas.
Context {K V : Type} `{EqDecision K}.
Implicit Types (d : dict K V) (k : K) (v : V).

Lemma dict_set_fresh k v d :
  k ∉ dict_keys d → dict_set k v d = d ++ [(k, v)].
Proof.
  induction d as [|[k' v'] d IH]; cbn; [done|].
  intros Hk. apply not_elem_of_cons in Hk as [Hne Hk].
  case_decide; [done|]. by rewrite IH.
Qed.

Lemma fold_dict_set_fresh {A} (h : A → K * V) (l : list A) d :
  NoDup (dict_keys d ++ (fst ∘ h <$> l)) →
  fold_left (λ d' a, dict_set (h a).1 (h a).2 d') l d = d ++ (h <$> l).
Proof.
  revert d. induction l as [|a l IH]; intros d Hnd; cbn.
  { by rewrite app_nil_r. }
  cbn in Hnd. apply NoDup_app in Hnd as (Hd & Hdisj & Hl).
  apply NoDup_cons in Hl as [Ha Hl].
  rewrite dict_set_fresh.
  2:{ intros Hin. apply (Hdisj _ Hin). left. }
  rewrite IH.
  { rewrite <- app_assoc. by destruct (h a). }
  unfold dict_keys. rewrite fmap_app. cbn.
  apply NoDup_app. split_and!.
  - apply NoDup_app. split_and!; [done| |apply NoDup_singleton].
    intros k Hk ->%list_elem_of_singleton. apply (Hdisj _ Hk). left.
  - intros k [Hk| ->%list_elem_of_singleton]%elem_of_app.
    + intros Hin. apply (Hdisj _ Hk). by right.
    + done.
  - done.
Qed.

Lemma dict_of_nodup (pairs : list (K * V)) :
  NoDup pairs.*1 → dict_of pairs = pairs.
Proof.
  intros Hnd. unfold dict_of.
  pose proof (fold_dict_set_fresh id pairs []) as Hfold. cbn in Hfold.
  rewrite Hfold; [by rewrite list_fmap_id|done].
Qed.

Lemma dict_lookup_app d d' k :
  dict_lookup (d ++ d') k =
  match dict_lookup d k with
  | Some v => Some v
  | None => dict_lookup d' k
  end.
Proof.
  induction d as [|[k' v'] d IH]; cbn; [done|]. by case_decide.
Qed.

Lemma dict_lookup_not_key d k : k ∉ dict_keys d → dict_lookup d k = None.
Proof.
  induction d as [|[k' v'] d IH]; cbn; [done|].
  intros [Hne Hk]%not_elem_of_cons. case_decide; [done|]. by apply IH.
Qed.

Lemma dict_lookup_imap {A} `{EqDecision A} (key : A → K) (val : nat → V)
    `{!Inj (=) (=) key} (l : list A) (k0 : nat) (x : A) :
  x ∈ l →
  dict_lookup (imap (λ i y, (key y, val (k0 + i)%nat)) l) (key x)
  = Some (val (k0 + index_of x l)%nat).
Proof.
  revert k0. induction l as [|y l IH]; intros k0 Hx.
  { by apply elem_of_nil in Hx. }
  rewrite imap_cons. cbn.
  destruct (decide (x = y)) as [->|Hne].
  - rewrite decide_True by done. done.
  - rewrite decide_False by (intros Heq; by apply Hne, (inj key)).
    apply elem_of_cons in Hx as [?|Hx]; [done|].
    specialize (IH (S k0) Hx).
    rewrite <- (Nat.add_succ_comm k0 (index_of x l)), <- IH.
    f_equal. apply imap_ext. intros i z _. cbn. f_equal. f_equal. lia.
Qed.

Lemma dict_get_lookup d k v : dict_lookup d k = Some v → dict_get d k = Ret v.
Proof. intros Hl. unfold dict_get. by rewrite Hl. Qed.

Lemma dict_lookup_is_Some d k :
  is_Some (dict_lookup d k) ↔ k ∈ dict_keys d.
Proof.
  induction d as [|[k' v'] d IH]; cbn.
  - split; [by intros [? ?]|by intros ?%elem_of_nil].
  - rewrite elem_of_cons, <- IH. case_decide; naive_solver.
Qed.

(** Assigning to a key keeps every key that was there. *)
Lemma dict_keys_set d k v k' :
  k' ∈ dict_keys (dict_set k v d) ↔ k' = k ∨ k' ∈ dict_keys d.
Proof.
  induction d as [|[k1 v1] d IH]; cbn.
  - rewrite list_elem_of_singleton, elem_of_nil. naive_solver.
  - case_decide; cbn; rewrite !elem_of_cons; [naive_solver|].
    rewrite IH. naive_solver.
Qed.
End DictLemmas.

(** ** The table [flats_containing] *)

Section FlatsContainingLemmas.
Context {L : Type} `{Countable L}.

Lemma lookup_flats_containing_init {A} (E : list L) (x : L) :
  flats_containing_init (A:=A) E !! x
  = if decide (x ∈ E) then Some [] else None.
Proof.
  unfold flats_containing_init. induction E as [|y E IH]; cbn.
  - rewrite lookup_empty. by rewrite decide_False by apply not_elem_of_nil.
  - rewrite lookup_insert. destruct (decide (y = x)) as [->|Hne].
    + by rewrite decide_True by left.
    + rewrite IH. destruct (decide (x ∈ E)) as [Hin|Hnin].
      * by rewrite decide_True by (by right).
      * rewrite decide_False; [done|].
        intros [?|?]%elem_of_cons; [by subst|done].
Qed.

Lemma fc_append_Some {A} (x : L) (a : A) (fc : gmap L (list A)) (v : list A) :
  fc !! x = Some v → fc_append x a fc = Ret (<[x := v ++ [a]]> fc).
Proof. intros Hv. unfold fc_append. by rewrite Hv. Qed.

(** One pass of the inner loop [for x in F] appends [a] to the entry of
    every member of [F]. *)
Lemma for_each_fc_append {A} (a : A) (l : list L) (fc : gmap L (list A)) :
  NoDup l → (∀ x, x ∈ l → is_Some (fc !! x)) →
  ∃ fc', for_each l (λ x fc0, fc_append x a fc0) fc = Ret fc'
         ∧ ∀ x, fc' !! x = if decide (x ∈ l)
                           then (λ v, v ++ [a]) <$> fc !! x
                           else fc !! x.
Proof.
  revert fc. induction l as [|y l IH]; intros fc Hnd Hdom.
  { exists fc. split; [done|]. intros x.
    by rewrite decide_False by apply not_elem_of_nil. }
  apply NoDup_cons in Hnd as [Hy Hnd].
  destruct (Hdom y) as [v Hv]; [left|].
  cbn [for_each]. rewrite (fc_append_Some y a fc v Hv), py_bind_Ret.
  destruct (IH (<[y := v ++ [a]]> fc) Hnd) as (fc' & Hrun & Hfc').
  { intros x Hx. rewrite lookup_insert. case_decide; [done|].
    apply Hdom. by right. }
  exists fc'. split; [done|]. intros x. rewrite Hfc'.
  rewrite lookup_insert.
  destruct (decide (y = x)) as [->|Hne].
  - rewrite decide_False by done. rewrite decide_True by left.
    by rewrite Hv.
  - destruct (decide (x ∈ l)) as [Hin|Hnin].
    + by rewrite decide_True by (by right).
    + rewrite decide_False; [done|].
      intros [?|?]%elem_of_cons; [by subst|done].
Qed.

(** When every flat is a subset of the groundset, the table is built
    without a [KeyError] and holds, for every element, the entries of the
    flats that contain it, in order. *)
Lemma build_flats_containing_spec {A} (E : list L)
    (entries : list (A * gset L)) :
  Forall (λ e, e.2 ⊆ list_to_set E) entries →
  ∃ fc, build_flats_containing E entries = Ret fc
        ∧ ∀ x, fc !! x = if decide (x ∈ E)
                         then Some (fst <$> filter (λ e, x ∈ e.2) entries)
                         else None.
Proof.
  unfold build_flats_containing.
  assert (∀ (done : list (A * gset L)) (fc : gmap L (list A)),
    (∀ x, fc !! x = if decide (x ∈ E)
                    then Some (fst <$> filter (λ e, x ∈ e.2) done)
                    else None) →
    Forall (λ e, e.2 ⊆ list_to_set E) entries →
    ∃ fc', for_each entries
             (λ '(a, F) fc0,
                for_each (elements F) (λ x fc1, fc_append x a fc1) fc0) fc
           = Ret fc'
         ∧ ∀ x, fc' !! x = if decide (x ∈ E)
              then Some (fst <$> filter (λ e, x ∈ e.2) (done ++ entries))
              else None) as Hgen.
  { induction entries as [|[a F] entries IH]; intros done fc Hfc Hsub.
    - exists fc. split; [done|]. intros x. by rewrite app_nil_r.
    - apply Forall_cons in Hsub as [HF Hsub]. cbn in HF.
      destruct (for_each_fc_append a (elements F) fc) as (fc1 & Hrun & Hfc1).
      { apply NoDup_elements. }
      { intros x Hx%elem_of_elements. rewrite Hfc.
        rewrite decide_True; [done|].
        apply HF in Hx. by apply elem_of_list_to_set in Hx. }
      destruct (IH (done ++ [(a, F)]) fc1) as (fc' & Hrun' & Hfc'); [|done|].
      { intros x. rewrite Hfc1, Hfc. rewrite filter_app, fmap_app.
        destruct (decide (x ∈ E)) as [HxE|HxE].
        - destruct (decide (x ∈ elements F)) as [HxF|HxF].
          + rewrite filter_cons_True by (by apply elem_of_elements).
            done.
          + rewrite filter_cons_False.
            2:{ cbn. intros ?. by apply HxF, elem_of_elements. }
            rewrite filter_nil, fmap_nil, app_nil_r. done.
        - by destruct (decide (x ∈ elements F)). }
      exists fc'. split.
      + cbn [for_each]. rewrite Hrun, py_bind_Ret. done.
      + intros x. rewrite Hfc'. by rewrite <- app_assoc. }
  intros Hsub.
  destruct (Hgen [] (flats_containing_init E)) as (fc & Hrun & Hfc); [|done|].
  - intros x. rewrite lookup_flats_containing_init. by case_decide.
  - exists fc. done.
Qed.
End FlatsContainingLemmas.

(** ** Comprehensions *)

Section Comprehensions.
Context {A B C : Type}.

Lemma elem_of_flat_map (f : A → list B) (l : list A) (y : B) :
  y ∈ flat_map f l ↔ ∃ x, x ∈ l ∧ y ∈ f x.
Proof.
  rewrite list_elem_of_In, in_flat_map. split.
  - intros (x & Hx & Hy). exists x. by rewrite !list_elem_of_In.
  - intros (x & Hx & Hy). exists x. by rewrite <- !list_elem_of_In.
Qed.

Lemma flat_map_fmap (f : B → list C) (g : A → B) (l : list A) :
  flat_map f (g <$> l) = flat_map (λ x, f (g x)) l.
Proof. induction l as [|x l IH]; cbn; [done|]. by rewrite IH. Qed.

Lemma flat_map_ext_elem (f g : A → list B) (l : list A) :
  (∀ x, x ∈ l → f x = g x) → flat_map f l = flat_map g l.
Proof.
  induction l as [|x l IH]; intros Hfg; cbn; [done|].
  rewrite (Hfg x) by left. rewrite IH; [done|].
  intros y Hy. apply Hfg. by right.
Qed.

Lemma filter_ext_elem (P1 P2 : A → Prop) `{!∀ x, Decision (P1 x)}
    `{!∀ x, Decision (P2 x)} (l : list A) :
  (∀ x, x ∈ l → P1 x ↔ P2 x) → filter P1 l = filter P2 l.
Proof.
  induction l as [|x l IH]; intros Hiff; [done|].
  assert (filter P1 l = filter P2 l) as Hl.
  { apply IH. intros y Hy. apply Hiff. by right. }
  destruct (decide (P1 x)) as [Hx|Hx].
  - rewrite !filter_cons_True; [by rewrite Hl| |done].
    apply (Hiff x); [left|done].
  - rewrite !filter_cons_False; [done| |done].
    intros Hx'. apply Hx, (Hiff x); [left|done].
Qed.

(** A comprehension that keeps one item for every entry that passes a
    test has as many items as entries pass it. *)
Lemma length_flat_map_test (b : A → bool) (g : nat * A → B) (h : nat → nat)
    (l : list A) :
  length (flat_map (λ e : nat * A, if b e.2 then [g e] else [])
                   (imap (λ i x, (h i, x)) l))
  = length (filter (λ x, b x) l).
Proof.
  revert h. induction l as [|x l IH]; intros h; [done|].
  rewrite imap_cons. cbn [flat_map snd]. rewrite length_app.
  pose proof (IH (h ∘ S)) as IH'. unfold compose in *. rewrite IH'.
  rewrite filter_cons.
  destruct (b x).
  - rewrite decide_True by exact I. done.
  - rewrite decide_False by (intros []). done.
Qed.
End Comprehensions.

(** ** The non-augmented presentation *)

Section NonAugmented.
Context {L : Type} `{Countable L} {P : Type} `{PolyRing P}.
Implicit Types (M : Matroid L) (fl : list (gset L)) (F G : gset L).

(** On two different flats the test of the module, [not (F < G or G < F)],
    is incomparability. *)
Lemma not_nested_incomparable F G :
  F ≠ G → not_nested F G = incomparable F G.
Proof.
  intros Hne. unfold not_nested, incomparable, flat_lt.
  destruct (bool_decide_reflect (F ⊂ G)) as [HFG|HFG];
    destruct (bool_decide_reflect (G ⊂ F)) as [HGF|HGF];
    destruct (bool_decide_reflect (F ⊆ G)) as [HFG'|HFG'];
    destruct (bool_decide_reflect (G ⊆ F)) as [HGF'|HGF']; cbn; try done.
  all: exfalso; set_solver.
Qed.

Lemma not_nested_refl F : not_nested F F = true.
Proof.
  unfold not_nested, flat_lt.
  rewrite bool_decide_eq_false_2; [done|]. set_solver.
Qed.

Lemma nonaug_quadratic_pairs_elem fl (i j : nat) :
  (i, j) ∈ nonaug_quadratic_pairs fl →
  ∃ F G, fl !! i = Some F ∧ fl !! (i + j + 1)%nat = Some G
         ∧ not_nested F G = true.
Proof.
  unfold nonaug_quadratic_pairs.
  intros ([i' F] & HiF & Hin)%elem_of_flat_map.
  apply elem_of_enumerate in HiF.
  apply elem_of_flat_map in Hin as ([j' G] & HjG & Hin).
  apply elem_of_enumerate in HjG. rewrite lookup_drop in HjG.
  destruct (not_nested F G) eqn:Hnn; [|by apply elem_of_nil in Hin].
  apply list_elem_of_singleton in Hin. simplify_eq.
  exists F, G. split_and!; [done| |done].
  rewrite <- HjG. f_equal. lia.
Qed.

Lemma sum_with_later fl :
  NoDup fl →
  list_sum (map (λ e : gset L * list (gset L),
                   length (filter (λ G, not_nested e.1 G) e.2))
                (with_later fl))
  = count_incomparable_pairs fl.
Proof.
  induction fl as [|F fl IH]; intros Hnd; [done|].
  apply NoDup_cons in Hnd as [HF Hnd].
  specialize (IH Hnd). cbn [count_incomparable_pairs]. rewrite <- IH.
  change (with_later (F :: fl)) with ((F, fl) :: with_later fl).
  rewrite map_cons. cbn [list_sum fold_right fst snd].
  f_equal. f_equal.
  apply filter_ext_elem. intros G HG.
  rewrite not_nested_incomparable; [done|]. intros ->. done.
Qed.

Lemma length_nonaug_quadratic_pairs fl :
  NoDup fl →
  length (nonaug_quadratic_pairs fl) = count_incomparable_pairs fl.
Proof.
  intros Hnd. rewrite <- (sum_with_later fl Hnd).
  rewrite <- (enumerate_drop fl).
  unfold nonaug_quadratic_pairs. rewrite length_flat_map.
  rewrite <- list_fmap_compose. f_equal.
  apply list_fmap_ext. intros k [i F] _. cbn.
  rewrite <- (length_flat_map_test (λ G, not_nested F G)
               (λ e, (i, e.1)) id (drop (i + 1) fl)).
  f_equal. apply flat_map_ext_elem. by intros [j G] _.
Qed.

Lemma nonaug_linear_pairs_with_later (E : list L) :
  nonaug_linear_pairs E
  = flat_map (λ e : L * list L, map (pair e.1) e.2) (with_later E).
Proof.
  rewrite <- (enumerate_drop E), flat_map_fmap.
  unfold nonaug_linear_pairs. apply flat_map_ext_elem. by intros [j x] _.
Qed.

Lemma length_nonaug_linear_pairs (E : list L) :
  length (nonaug_linear_pairs E) = choose (length E) 2.
Proof.
  rewrite nonaug_linear_pairs_with_later. apply length_pairs_with_later.
Qed.

Lemma nonaug_linear_pairs_elem (E : list L) (x y : L) :
  (x, y) ∈ nonaug_linear_pairs E → x ∈ E ∧ y ∈ E.
Proof.
  rewrite nonaug_linear_pairs_with_later.
  intros ([x' rest] & Hin & Hxy)%elem_of_flat_map.
  apply elem_of_with_later in Hin as [Hx Hrest].
  apply list_elem_of_fmap in Hxy as (y' & Heq & Hy'). simplify_eq.
  split; [done|]. by apply Hrest.
Qed.
End NonAugmented.

Section NonAugmentedBuilder.
Context {L : Type} `{Countable L} {P : Type} `{PolyRing P}.
Implicit Types (M : Matroid L) (fl : list (gset L)) (F G : gset L).

Lemma enumerate_subset (E : list L) fl :
  Forall (λ F, F ⊆ list_to_set E) fl →
  Forall (λ e : nat * gset L, e.2 ⊆ list_to_set E) (enumerate fl).
Proof.
  rewrite !Forall_forall. intros Hsub [i F] HiF%elem_of_enumerate.
  apply Hsub. by eapply list_elem_of_lookup_2.
Qed.

Lemma zip_flats_gens_keys fl :
  NoDup fl →
  dict_keys (dict_of (zip fl (ring_gens (P:=P) (length fl)))) = fl.
Proof.
  intros Hnd.
  assert ((zip fl (ring_gens (P:=P) (length fl))).*1 = fl) as Hfst.
  { apply fst_zip. by rewrite length_ring_gens. }
  rewrite dict_of_nodup by (by rewrite Hfst). exact Hfst.
Qed.

Lemma indices_containing_lt fl (x : L) (i : nat) :
  i ∈ indices_containing fl x → (i < length fl)%nat.
Proof.
  unfold indices_containing.
  intros ([i' F] & -> & Hin)%list_elem_of_fmap.
  apply list_elem_of_filter in Hin as [_ Hin%elem_of_enumerate].
  by eapply lookup_lt_Some.
Qed.

Lemma sum_gens_at_spec (E : list L) fl (fc : gmap L (list nat)) (x : L) :
  (∀ y, fc !! y = if decide (y ∈ E)
                  then Some (fst <$> filter (λ e, y ∈ e.2) (enumerate fl))
                  else None) →
  x ∈ E →
  sum_gens_at fc (ring_gens (length fl)) x = Ret (nonaug_sum_containing fl x).
Proof.
  intros Hfc Hx. unfold sum_gens_at, fc_get.
  rewrite Hfc, decide_True by done. rewrite py_bind_Ret.
  rewrite (mapM_Ret_map _ pgen).
  - reflexivity.
  - intros i Hi. apply py_index_ring_gens.
    by apply (indices_containing_lt fl x).
Qed.

(** The generator sequence of a well-formed matroid, with every lookup
    resolved. *)
Lemma nonaug_gens_constructor_wf M :
  matroid_wf M →
  let fl := proper_flats M in
  nonaug_gens_constructor M
    (dict_of (zip fl (ring_gens (length fl)))) (length fl)
  = Ret (((λ ij : nat * nat, pmul (pgen ij.1) (pgen (ij.1 + ij.2 + 1)%nat))
            <$> nonaug_quadratic_pairs fl)
         ++ ((λ xy : L * L, psub (nonaug_sum_containing fl xy.1)
                                  (nonaug_sum_containing fl xy.2))
               <$> nonaug_linear_pairs (groundset M))).
Proof.
  intros [HE Hnd Hsub] fl. unfold nonaug_gens_constructor.
  rewrite (zip_flats_gens_keys fl Hnd).
  destruct (build_flats_containing_spec (groundset M) (enumerate fl))
    as (fc & -> & Hfc); [by apply enumerate_subset|].
  rewrite py_bind_Ret.
  rewrite (mapM_Ret_map _
    (λ ij : nat * nat, pmul (pgen ij.1) (pgen (ij.1 + ij.2 + 1)%nat))).
  2:{ intros [i j] Hij.
      apply nonaug_quadratic_pairs_elem in Hij as (F & G & HF & HG & _).
      rewrite !py_index_ring_gens by (by eapply lookup_lt_Some).
      reflexivity. }
  rewrite py_bind_Ret.
  rewrite (mapM_Ret_map _
    (λ xy : L * L, psub (nonaug_sum_containing fl xy.1)
                        (nonaug_sum_containing fl xy.2))).
  2:{ intros [x y] [Hx Hy]%nonaug_linear_pairs_elem.
      rewrite (sum_gens_at_spec (groundset M) fl fc x Hfc Hx).
      rewrite (sum_gens_at_spec (groundset M) fl fc y Hfc Hy).
      reflexivity. }
  reflexivity.
Qed.

(** C6. The generator sequence of the non-augmented presentation is its
    quadratic generators followed by its linear generators. There is one
    quadratic generator, the product of the two variables, for every
    unordered pair of incomparable proper flats, and their number is the
    number such pairs found by a pairwise scan. There is one linear
    generator, the difference of the two sums over the flats containing
    each element, for every one of the C(|E|, 2) pairs of positions of the
    groundset: none is dropped as redundant. *)
Theorem nonaug_generator_counts M :
  matroid_wf M →
  ∃ I Q Lin,
    nonaug_init M = Ret I ∧ na_gens I = Q ++ Lin
    ∧ Forall (λ q, ∃ i j F G,
                (i < j)%nat ∧ proper_flats M !! i = Some F
                ∧ proper_flats M !! j = Some G
                ∧ incomparable F G = true
                ∧ q = pmul (pgen i) (pgen j)) Q
    ∧ length Q = count_incomparable_pairs (proper_flats M)
    ∧ Forall (λ l, ∃ x y,
                x ∈ groundset M ∧ y ∈ groundset M
                ∧ l = psub (nonaug_sum_containing (proper_flats M) x)
                           (nonaug_sum_containing (proper_flats M) y)) Lin
    ∧ length Lin = choose (length (groundset M)) 2.
Proof.
  intros Hwf. pose proof (nonaug_gens_constructor_wf M Hwf) as Hgens.
  cbn zeta in Hgens. destruct Hwf as [HE Hnd Hsub].
  eexists _, _, _. split_and!.
  - unfold nonaug_init. rewrite Hgens. reflexivity.
  - reflexivity.
  - apply Forall_forall. intros q ([i j] & -> & Hij)%list_elem_of_fmap.
    apply nonaug_quadratic_pairs_elem in Hij as (F & G & HF & HG & Hnn).
    exists i, (i + j + 1)%nat, F, G. split_and!; [lia|done|done| |done].
    rewrite <- not_nested_incomparable; [done|].
    intros ->. apply (NoDup_lookup _ _ _ _ Hnd HF) in HG. lia.
  - rewrite length_fmap. by apply length_nonaug_quadratic_pairs.
  - apply Forall_forall. intros l ([x y] & -> & Hxy)%list_elem_of_fmap.
    apply nonaug_linear_pairs_elem in Hxy as [Hx Hy]. by exists x, y.
  - rewrite length_fmap. apply length_nonaug_linear_pairs.
Qed.
End NonAugmentedBuilder.

(** ** The presentation of Feitchner and Yuzvinsky *)

Section FYBuilder.
Context {L : Type} `{Countable L} {P : Type} `{PolyRing P}.
Implicit Types (M : Matroid L) (E : list L) (fl : list (gset L)).
Implicit Types (F G : gset L).

Lemma fold_left_skip {A S} (b : A → bool) (f : S → A → S) (l : list A)
    (s : S) :
  fold_left (λ acc a, if b a then acc else f acc a) l s
  = fold_left f (filter (λ a, ¬ b a) l) s.
Proof.
  revert s. induction l as [|a l IH]; intros s; [done|].
  cbn [fold_left]. rewrite filter_cons. destruct (b a) eqn:Hb.
  - rewrite decide_False by (intros Hn; by apply Hn). apply IH.
  - rewrite decide_True by (by intros []). cbn [fold_left]. apply IH.
Qed.

Lemma fold_left_fmap {A B S} (f : S → B → S) (g : A → B) (l : list A)
    (s : S) :
  fold_left f (g <$> l) s = fold_left (λ acc a, f acc (g a)) l s.
Proof. revert s. induction l as [|a l IH]; intros s; cbn; [done|]. apply IH. Qed.

Lemma flat_map_test {A B} (b : A → bool) (f : A → B) (l : list A) :
  flat_map (λ a, if b a then [f a] else []) l = f <$> filter (λ a, b a) l.
Proof.
  induction l as [|a l IH]; [done|].
  cbn [flat_map]. rewrite IH, filter_cons. destruct (b a).
  - by rewrite decide_True by exact I.
  - by rewrite decide_False by (intros []).
Qed.

End FYBuilder.

Section FYDict.
Context {L : Type} `{Countable L} {P : Type} `{PolyRing P}.
Implicit Types (M : Matroid L) (E : list L) (fl : list (gset L)).
Implicit Types (F G : gset L).

Lemma fmap_snd_enumerate {A} (l : list A) : snd <$> enumerate l = l.
Proof. apply (fmap_snd_imap (λ i, i) l). Qed.

(** With distinct elements and distinct flats, the dictionary gives the
    element at position [k] the variable [k] and the flat at position [i]
    the variable [|E| + i]. *)
Lemma fy_fill_dict_spec E fl :
  NoDup E → NoDup fl →
  ∃ d, fy_fill_dict E fl (ring_gens (length E + length fl)) = Ret d
       ∧ (∀ x, x ∈ E → dict_lookup d (inl x) = Some (fy_element_var E x))
       ∧ (∀ F, F ∈ fl → dict_lookup d (inr F) = Some (fy_flat_var E fl F)).
Proof.
  intros HE Hfl. unfold fy_fill_dict.
  set (h1 := λ e : nat * L, (inl (B:=gset L) e.2, pgen (P:=P) e.1)).
  set (h2 := λ e : nat * gset L,
               (inr (A:=L) e.2, pgen (P:=P) (length E + e.1)%nat)).
  rewrite (for_each_Ret_fold _ (λ d e, dict_set (h1 e).1 (h1 e).2 d)).
  2:{ intros [i x] d Hix%elem_of_enumerate. cbn.
      rewrite py_index_ring_gens; [done|].
      apply lookup_lt_Some in Hix. lia. }
  rewrite py_bind_Ret.
  rewrite (for_each_Ret_fold _ (λ d e, dict_set (h2 e).1 (h2 e).2 d)).
  2:{ intros [i F] d HiF%elem_of_enumerate. cbn.
      rewrite py_index_ring_gens; [done|].
      apply lookup_lt_Some in HiF. lia. }
  assert (fst ∘ h1 <$> enumerate E = inl <$> E) as Hk1.
  { rewrite <- (fmap_snd_enumerate E) at 2. by rewrite <- list_fmap_compose. }
  assert (fst ∘ h2 <$> enumerate fl = inr <$> fl) as Hk2.
  { rewrite <- (fmap_snd_enumerate fl) at 2. by rewrite <- list_fmap_compose. }
  rewrite (fold_dict_set_fresh h1 (enumerate E) []).
  2:{ cbn. rewrite Hk1. by apply (NoDup_fmap_2 inl). }
  cbn [app].
  rewrite (fold_dict_set_fresh h2 (enumerate fl)).
  2:{ unfold dict_keys. rewrite <- list_fmap_compose, Hk1, Hk2.
      apply NoDup_app. split_and!.
      - by apply (NoDup_fmap_2 inl).
      - intros k (x & -> & _)%list_elem_of_fmap (F & ? & _)%list_elem_of_fmap.
        done.
      - by apply (NoDup_fmap_2 inr). }
  eexists. split; [reflexivity|]. split.
  - intros x Hx. rewrite dict_lookup_app.
    assert (h1 <$> enumerate E
            = imap (λ i y, (inl y, pgen (0 + i)%nat)) E) as ->.
    { unfold enumerate. rewrite fmap_imap. by apply imap_ext. }
    rewrite (dict_lookup_imap inl (λ k, pgen k) E 0 x Hx). done.
  - intros F HF. rewrite dict_lookup_app.
    rewrite dict_lookup_not_key.
    2:{ unfold dict_keys. rewrite <- list_fmap_compose, Hk1.
        intros (x & ? & _)%list_elem_of_fmap. done. }
    assert (h2 <$> enumerate fl
            = imap (λ i y, (inr y, pgen (length E + (0 + i))%nat)) fl) as ->.
    { unfold enumerate. rewrite fmap_imap. by apply imap_ext. }
    rewrite (dict_lookup_imap inr (λ k, pgen (length E + k)%nat) fl 0 F HF).
    done.
Qed.
End FYDict.

Section FYGenerators.
Context {L : Type} `{Countable L} {P : Type} `{PolyRing P}.
Implicit Types (M : Matroid L) (E : list L) (fl : list (gset L)).
Implicit Types (F G : gset L).

Lemma incomparable_irrefl F : incomparable F F = false.
Proof. unfold incomparable. by rewrite bool_decide_eq_true_2. Qed.

Lemma incomparable_sym F G : incomparable F G = incomparable G F.
Proof. unfold incomparable. apply andb_comm. Qed.

(** The test of the module passes on equal flats and on incomparable
    flats, and on no others. *)
Lemma not_nested_iff F G : not_nested F G ↔ F = G ∨ incomparable F G.
Proof.
  destruct (decide (F = G)) as [->|Hne].
  - rewrite not_nested_refl. split; [by left|done].
  - rewrite (not_nested_incomparable F G Hne). naive_solver.
Qed.

Lemma fy_quadratic_spec E fl (d : dict (L + gset L) P) :
  (∀ F, F ∈ fl → dict_lookup d (inr F) = Some (fy_flat_var E fl F)) →
  fy_quadratic fl d = Ret (fy_quadratic_ordered E fl).
Proof.
  intros Hd. unfold fy_quadratic, fy_quadratic_ordered.
  apply collect_Ret_flat_map. intros F HF.
  rewrite (collect_Ret_flat_map _
    (λ G, if not_nested F G
          then [pmul (fy_flat_var E fl F) (fy_flat_var E fl G)] else [])).
  - f_equal. rewrite flat_map_test. f_equal.
    apply filter_ext_elem. intros G _. apply not_nested_iff.
  - intros G HG. destruct (not_nested F G); [|done].
    rewrite (dict_get_lookup _ _ _ (Hd F HF)), py_bind_Ret.
    by rewrite (dict_get_lookup _ _ _ (Hd G HG)).
Qed.

Lemma fy_linear_form_spec E fl (d : dict (L + gset L) P)
    (fc : gmap L (list (gset L))) (x : L) :
  (∀ y, y ∈ E → dict_lookup d (inl y) = Some (fy_element_var E y)) →
  (∀ F, F ∈ fl → dict_lookup d (inr F) = Some (fy_flat_var E fl F)) →
  (∀ y, fc !! y = if decide (y ∈ E)
                  then Some (fst <$> filter (λ e, y ∈ e.2)
                                            ((λ F, (F, F)) <$> fl))
                  else None) →
  x ∈ E →
  fy_linear_form fl d fc x = Ret (fy_linear_described E fl x).
Proof.
  intros HdE Hdfl Hfc Hx. unfold fy_linear_form, fy_linear_described.
  rewrite (for_each_Ret_fold _
    (λ term F, if bool_decide (x ∈ F) then term
               else padd term (fy_flat_var E fl F))).
  2:{ intros F term HF. unfold fc_get.
      rewrite Hfc, decide_True by done. rewrite py_bind_Ret.
      assert (F ∈ (filter (λ e : gset L * gset L, x ∈ e.2)
                          ((λ F0, (F0, F0)) <$> fl)).*1 ↔ x ∈ F) as Hiff.
      { rewrite list_elem_of_fmap. split.
        - intros ([F1 F2] & -> & [HxF Hin]%list_elem_of_filter).
          apply list_elem_of_fmap in Hin as (F3 & Heq & _). by simplify_eq.
        - intros HxF. exists (F, F). split; [done|].
          apply list_elem_of_filter. split; [done|].
          apply (list_elem_of_fmap_2 (λ F0 : gset L, (F0, F0)) fl F HF). }
      destruct (bool_decide_reflect (x ∈ F)) as [HxF|HxF].
      - rewrite bool_decide_eq_true_2 by (by apply Hiff). done.
      - rewrite bool_decide_eq_false_2 by (by rewrite Hiff).
        by rewrite (dict_get_lookup _ _ _ (Hdfl F HF)). }
  rewrite py_bind_Ret.
  rewrite (dict_get_lookup _ _ _ (HdE x Hx)), py_bind_Ret.
  f_equal. f_equal. unfold psum.
  rewrite (fold_left_skip (λ F, bool_decide (x ∈ F))
             (λ term F, padd term (fy_flat_var E fl F))).
  rewrite fold_left_fmap. f_equal.
  apply filter_ext_elem. intros F _.
  destruct (bool_decide_reflect (x ∈ F)); naive_solver.
Qed.

(** The generator sequence of a well-formed matroid, with every lookup
    resolved. *)
Lemma fy_init_wf M :
  matroid_wf M →
  let E := groundset M in
  let fl := proper_flats M in
  ∃ I, fy_init M = Ret I ∧ fy_matroid I = M ∧ fy_flats I = fl
       ∧ fy_ring I = (length E + length fl)%nat
       ∧ fy_gens I = fy_quadratic_ordered E fl
                     ++ (fy_linear_described E fl <$> E).
Proof.
  intros [HE Hnd Hsub] E fl. unfold fy_init. cbv zeta. fold E fl.
  destruct (fy_fill_dict_spec E fl HE Hnd) as (d & -> & HdE & Hdfl).
  rewrite py_bind_Ret. unfold fy_gens_constructor.
  destruct (build_flats_containing_spec E ((λ F, (F, F)) <$> fl))
    as (fc & Hbuild & Hfc).
  { apply Forall_fmap. by apply (Forall_impl _ _ _ Hsub). }
  fold E fl. rewrite Hbuild, py_bind_Ret.
  rewrite (fy_quadratic_spec E fl d Hdfl), py_bind_Ret.
  rewrite (mapM_Ret_map _ (fy_linear_described E fl)).
  2:{ intros x Hx. by apply fy_linear_form_spec. }
  rewrite py_bind_Ret. eexists. split; [reflexivity|]. done.
Qed.
End FYGenerators.

Section FYCount.
Context {L : Type} `{Countable L} {P : Type} `{PolyRing P}.
Implicit Types (M : Matroid L) (E : list L) (fl : list (gset L)).
Implicit Types (F G : gset L).

Lemma sum_filter_cons {A} (p : A → A → Prop) `{!∀ x y, Decision (p x y)}
    (y0 : A) (l1 l2 : list A) :
  list_sum (map (λ x, length (filter (p x) (y0 :: l2))) l1)
  = (length (filter (λ x, p x y0) l1)
     + list_sum (map (λ x, length (filter (p x) l2)) l1))%nat.
Proof.
  induction l1 as [|x l1 IH]; [done|].
  rewrite !map_cons. cbn [list_sum fold_right].
  change (fold_right Init.Nat.add 0%nat ?l) with (list_sum l).
  rewrite IH. rewrite !filter_cons.
  destruct (decide (p x y0)); cbn [length]; lia.
Qed.

Lemma sum_equal_or_incomparable fl :
  NoDup fl →
  list_sum (map (λ F, length (filter (λ G, F = G ∨ incomparable F G) fl)) fl)
  = (length fl + 2 * count_incomparable_pairs fl)%nat.
Proof.
  induction fl as [|F0 fl IH]; intros Hnd; [done|].
  apply NoDup_cons in Hnd as [HF0 Hnd]. specialize (IH Hnd).
  rewrite map_cons. cbn [list_sum fold_right].
  change (fold_right Init.Nat.add 0%nat ?l) with (list_sum l).
  rewrite (sum_filter_cons (λ F G, F = G ∨ incomparable F G) F0 fl fl).
  rewrite IH. rewrite filter_cons_True by (by left).
  cbn [length count_incomparable_pairs].
  assert (filter (λ G, F0 = G ∨ incomparable F0 G) fl
          = filter (λ G, incomparable F0 G) fl) as ->.
  { apply filter_ext_elem. intros G HG. split; [|by right].
    intros [->|?]; done. }
  assert (filter (λ F, F = F0 ∨ incomparable F F0) fl
          = filter (λ G, incomparable F0 G) fl) as ->.
  { apply filter_ext_elem. intros G HG. rewrite (incomparable_sym G F0).
    split; [|by right]. intros [->|?]; done. }
  lia.
Qed.

Lemma length_fy_quadratic_ordered E fl :
  NoDup fl →
  length (fy_quadratic_ordered (P:=P) E fl)
  = (length fl + 2 * count_incomparable_pairs fl)%nat.
Proof.
  intros Hnd. rewrite <- (sum_equal_or_incomparable fl Hnd).
  unfold fy_quadratic_ordered. rewrite length_flat_map. f_equal.
  apply map_ext. intros F. by rewrite length_fmap.
Qed.

(** What the constructor of the presentation of Feitchner and Yuzvinsky
    builds: its quadratic generators followed by its linear generators.
    There is one product for every ordered pair of proper flats that are
    equal or incomparable, since [not (F < G or G < F)] holds of both, and
    one linear form for every groundset element, in the order of the
    groundset. *)
Lemma fy_constructor_sequence M :
  matroid_wf M →
  let E := groundset M in
  let fl := proper_flats M in
  ∃ I, fy_init M = Ret I
       ∧ fy_gens I = fy_quadratic_ordered E fl
                     ++ (fy_linear_described E fl <$> E)
       ∧ length (fy_quadratic_ordered (P:=P) E fl)
         = (length fl + 2 * count_incomparable_pairs fl)%nat.
Proof.
  intros Hwf E fl.
  destruct (fy_init_wf M Hwf) as (I & Hinit & _ & _ & _ & Hgens).
  exists I. split_and!; [done|done|].
  apply length_fy_quadratic_ordered. by destruct Hwf.
Qed.
End FYCount.

(** ** Matroids of rank at most 1 *)

Section SmallRank.
Context {L : Type} `{Countable L} {P : Type} `{PolyRing P}.
Implicit Types (M : Matroid L) (E : list L) (fl : list (gset L)).

Lemma proper_flats_small_rank M : (full_rank M ≤ 1)%Z → proper_flats M = [].
Proof.
  intros Hr. unfold proper_flats. by rewrite py_range_empty.
Qed.

Lemma small_rank_wf M :
  (full_rank M ≤ 1)%Z → NoDup (groundset M) → matroid_wf M.
Proof.
  intros Hr HE. split; [done| |]; rewrite (proper_flats_small_rank M Hr).
  - apply NoDup_nil_2.
  - apply Forall_nil_2.
Qed.

Lemma fmap_const_replicate {A B} (c : B) (l : list A) :
  (λ _, c) <$> l = replicate (length l) c.
Proof. induction l as [|a l IH]; cbn; [done|]. by rewrite IH. Qed.

(** What the three constructors build when there is no proper flat. *)
Lemma small_rank_init M :
  (full_rank M ≤ 1)%Z → NoDup (groundset M) →
  let E := groundset M in
  nonaug_init M
    = Ret {| na_matroid := M; na_flats_generator := []; na_ring := 0;
             na_gens := replicate (choose (length E) 2) (psub pzero pzero) |}
  ∧ (∃ I, fy_init M = Ret I ∧ fy_matroid I = M ∧ fy_flats I = []
          ∧ fy_ring I = length E
          ∧ fy_gens I = (λ x, psub (fy_element_var E x) pzero) <$> E)
  ∧ af_init M
    = Ret {| af_matroid := M; af_flats := []; af_flats_generator := [];
             af_ring := 0; af_gens := [] |}.
Proof.
  intros Hr HE E.
  pose proof (proper_flats_small_rank M Hr) as Hfl.
  pose proof (small_rank_wf M Hr HE) as Hwf.
  split_and!.
  - pose proof (nonaug_gens_constructor_wf M Hwf) as Hgens.
    cbv zeta in Hgens. unfold nonaug_init. rewrite Hgens, py_bind_Ret.
    rewrite Hfl. cbn [length zip zip_with ring_gens seq map dict_of fold_left
                      nonaug_quadratic_pairs enumerate imap flat_map fmap
                      list_fmap app].
    f_equal. f_equal.
    rewrite <- length_nonaug_linear_pairs.
    apply (fmap_const_replicate (psub pzero pzero)).
  - destruct (fy_init_wf M Hwf) as (I & Hinit & HM & Hflats & Hring & Hgens).
    cbv zeta in Hgens. rewrite Hfl in Hflats, Hring, Hgens.
    exists I. split_and!; [done|done|done| |].
    + rewrite Hring. unfold E. cbn. lia.
    + rewrite Hgens. reflexivity.
  - unfold af_init. rewrite Hfl. reflexivity.
Qed.

(** C7, as amended. For a matroid of rank at most 1 the three
    constructors return without raising and there is no proper flat. The
    generator sequence of the non-augmented presentation is C(|E|, 2)
    times the difference [0 - 0], and that of the atom-free presentation
    is empty. The generator sequence of the presentation of Feitchner and
    Yuzvinsky has one entry [y_x - 0] for every element [x] of the
    groundset: the variables of the groundset. *)
Theorem small_rank_generators M :
  (full_rank M ≤ 1)%Z → NoDup (groundset M) →
  let E := groundset M in
  proper_flats M = []
  ∧ (∃ I, nonaug_init M = Ret I
          ∧ na_gens I = replicate (choose (length E) 2) (psub pzero pzero))
  ∧ (∃ I, fy_init M = Ret I ∧ fy_flats I = []
          ∧ fy_gens I = (λ x, psub (fy_element_var E x) pzero) <$> E)
  ∧ (∃ I, af_init M = Ret I ∧ af_flats I = [] ∧ af_gens I = []).
Proof.
  intros Hr HE E.
  destruct (small_rank_init M Hr HE) as (Hna & (I & Hfy & _ & ? & _ & ?) & Haf).
  split_and!.
  - by apply proper_flats_small_rank.
  - eexists. split; [exact Hna|done].
  - exists I. done.
  - eexists. split; [exact Haf|done].
Qed.

(** C8, as amended. A matroid of rank at most 0 is not rejected: the three
    constructors return an ideal, whose ring has no flat variable. *)
Theorem rank_zero_is_accepted M :
  (full_rank M ≤ 0)%Z → NoDup (groundset M) →
  (∃ I, nonaug_init M = Ret I ∧ na_ring I = 0%nat)
  ∧ (∃ I, fy_init M = Ret I ∧ fy_ring I = length (groundset M))
  ∧ (∃ I, af_init M = Ret I ∧ af_ring I = 0%nat).
Proof.
  intros Hr HE.
  destruct (small_rank_init M) as (Hna & (I & Hfy & _ & _ & ? & _) & Haf);
    [lia|done|].
  split_and!.
  - eexists. split; [exact Hna|done].
  - exists I. done.
  - eexists. split; [exact Haf|done].
Qed.
End SmallRank.

(** ** The algorithm selector *)

Section Selector.
Context {L : Type} `{Countable L} {P : Type} `{PolyRing P}.
Variable generic_groebner_basis : list P → list P.
Variable generic_cached_method : list P → string → py (pyvalue P).

(** C2. With the selector ['constructed'], the one that asks for the
    generic procedure, [groebner_basis] of each of the three classes calls
    the procedure and drops its result: the method returns [None], not the
    generic Groebner basis. *)
Theorem fallback_returns_none
    (I1 : ChowRingIdeal_nonaug (L:=L) (P:=P))
    (I2 : AugmentedChowRingIdeal_fy (L:=L) (P:=P))
    (I3 : AugmentedChowRingIdeal_atom_free (L:=L) (P:=P)) :
  nonaug_groebner_basis generic_groebner_basis I1 "constructed" = Ret PyNone
  ∧ fy_groebner_basis generic_groebner_basis I2 "constructed" = Ret PyNone
  ∧ af_groebner_basis generic_groebner_basis I3 "constructed" = Ret PyNone.
Proof. done. Qed.

(** An instance keeps the binding [__init__] gave it as long as no call
    passes ['constructed']. *)
Lemma after_calls_fresh (history : list string) :
  "constructed" ∉ history → after_calls history = ClassMethod.
Proof.
  unfold after_calls. induction history as [|a history IH] using rev_ind.
  - done.
  - intros Hnot. rewrite fold_left_app. cbn [fold_left].
    rewrite IH by (intros Hin; apply Hnot, elem_of_app; by left).
    cbn [binding_after].
    destruct (String.eqb_spec a "constructed") as [->|Hne]; [|done].
    exfalso. apply Hnot, elem_of_app. right. by apply list_elem_of_singleton.
Qed.

(** After a call with ['constructed'] the instance no longer runs the
    method of its class: every later call, whatever its selector, is
    answered by the cached generic method. *)
Lemma after_calls_rebound (history : list string) :
  "constructed" ∈ history → after_calls history = GenericCached.
Proof.
  intros (l1 & l2 & ->)%list_elem_of_split. unfold after_calls.
  rewrite fold_left_app. cbn [fold_left].
  assert (binding_after (fold_left binding_after l1 ClassMethod)
            "constructed" = GenericCached) as ->
    by (by destruct (fold_left binding_after l1 ClassMethod)).
  induction l2 as [|a l2 IH]; [done|exact IH].
Qed.

Lemma calls_after_constructed (history : list string) (algorithm : string)
    (I1 : ChowRingIdeal_nonaug (L:=L) (P:=P))
    (I2 : AugmentedChowRingIdeal_fy (L:=L) (P:=P))
    (I3 : AugmentedChowRingIdeal_atom_free (L:=L) (P:=P)) :
  "constructed" ∈ history →
  nonaug_call generic_groebner_basis generic_cached_method
    I1 (after_calls history) algorithm
  = (generic_cached_method (na_gens I1) algorithm, GenericCached)
  ∧ fy_call generic_groebner_basis generic_cached_method
      I2 (after_calls history) algorithm
    = (generic_cached_method (fy_gens I2) algorithm, GenericCached)
  ∧ af_call generic_groebner_basis generic_cached_method
      I3 (after_calls history) algorithm
    = (generic_cached_method (af_gens I3) algorithm, GenericCached).
Proof. intros ->%after_calls_rebound. done. Qed.

(** C3, as amended. On an instance of any of the three classes on which
    [groebner_basis] has not been called with ['constructed'], whatever
    else has been called on it, a call with a selector other than [''] and
    ['constructed'] returns [None], raises nothing, and leaves the instance
    in that state. *)
Theorem unsupported_selector_returns_none
    (history : list string) (algorithm : string)
    (I1 : ChowRingIdeal_nonaug (L:=L) (P:=P))
    (I2 : AugmentedChowRingIdeal_fy (L:=L) (P:=P))
    (I3 : AugmentedChowRingIdeal_atom_free (L:=L) (P:=P)) :
  "constructed" ∉ history →
  algorithm ≠ "" → algorithm ≠ "constructed" →
  nonaug_call generic_groebner_basis generic_cached_method
    I1 (after_calls history) algorithm = (Ret PyNone, ClassMethod)
  ∧ fy_call generic_groebner_basis generic_cached_method
      I2 (after_calls history) algorithm = (Ret PyNone, ClassMethod)
  ∧ af_call generic_groebner_basis generic_cached_method
      I3 (after_calls history) algorithm = (Ret PyNone, ClassMethod).
Proof.
  intros Hfresh%after_calls_fresh Hne1%String.eqb_neq Hne2%String.eqb_neq.
  rewrite Hfresh.
  unfold nonaug_call, fy_call, af_call, call_groebner_basis, binding_after.
  unfold nonaug_groebner_basis, fy_groebner_basis, af_groebner_basis.
  by rewrite Hne1, Hne2.
Qed.
End Selector.

(** ** The engine of the presentation of Feitchner and Yuzvinsky *)

Section FYEngine.
Context {L : Type} `{Countable L} {P : Type} `{PolyRing P}.
Implicit Types (M : Matroid L) (E : list L) (fl : list (gset L)).
Implicit Types (F G : gset L).

Lemma for_each_returns {A S} (xs : list A)
    (body : A → S → py S) (s : S) :
  (∀ x s', x ∈ xs → ∃ s'', body x s' = Ret s'') →
  ∃ s', for_each xs body s = Ret s'.
Proof.
  revert s. induction xs as [|x xs IH]; intros s Hb; [by eexists|].
  destruct (Hb x s) as [s'' Hs]; [left|].
  cbn [for_each]. rewrite Hs, py_bind_Ret.
  apply IH. intros y s' Hy. apply Hb. by right.
Qed.

Lemma collect_returns_Forall {A B} (Q : B → Prop) (xs : list A)
    (body : A → py (list B)) :
  (∀ x, x ∈ xs → ∃ ys, body x = Ret ys ∧ Forall Q ys) →
  ∃ zs, collect xs body = Ret zs ∧ Forall Q zs.
Proof.
  induction xs as [|x xs IH]; intros Hb.
  { exists []. by split. }
  destruct (Hb x) as (ys & Hys & HQ); [left|].
  destruct IH as (zs & Hzs & HQ').
  { intros y Hy. apply Hb. by right. }
  exists (ys ++ zs). split.
  - cbn [collect]. by rewrite Hys, py_bind_Ret, Hzs, py_bind_Ret.
  - by apply Forall_app.
Qed.

(** Every key the two loops of [__init__] assign is in the dictionary. *)
Lemma for_each_dict_set_keys {A K} `{EqDecision K} (key : A → K)
    (body : A → dict K P → py (dict K P)) (l : list A) (d0 d : dict K P) :
  (∀ a d1 d2, body a d1 = Ret d2 →
     ∀ k, k ∈ dict_keys d2 ↔ k = key a ∨ k ∈ dict_keys d1) →
  for_each l body d0 = Ret d →
  ∀ k, k ∈ dict_keys d ↔ k ∈ key <$> l ∨ k ∈ dict_keys d0.
Proof.
  intros Hbody. revert d0. induction l as [|a l IH]; intros d0 Hrun k.
  - cbn in Hrun. simplify_eq. rewrite fmap_nil, elem_of_nil. naive_solver.
  - cbn [for_each] in Hrun. destruct (body a d0) as [d1|e] eqn:Hd1; [|done].
    rewrite py_bind_Ret in Hrun.
    rewrite (IH d1 Hrun k), (Hbody a d0 d1 Hd1 k), fmap_cons, elem_of_cons.
    naive_solver.
Qed.

Lemma fy_fill_dict_keys E fl (gens : list P) (d : dict (L + gset L) P) :
  fy_fill_dict E fl gens = Ret d →
  (∀ x, x ∈ E → is_Some (dict_lookup d (inl x)))
  ∧ (∀ F, F ∈ fl → is_Some (dict_lookup d (inr F))).
Proof.
  unfold fy_fill_dict. intros Hrun.
  match type of Hrun with
  | (?m ≫= _) = _ => destruct m as [d1|e] eqn:Hd1; [|done]
  end.
  rewrite py_bind_Ret in Hrun.
  assert (∀ k, k ∈ dict_keys d1
               ↔ k ∈ (λ e : nat * L, inl e.2) <$> enumerate E
                 ∨ k ∈ dict_keys (V:=P) []) as Hk1.
  { eapply (for_each_dict_set_keys (λ e : nat * L, inl e.2)); [|exact Hd1].
    intros [i x] da db. cbn. destruct (py_index gens _); [|done].
    rewrite py_bind_Ret. intros [= <-] k. apply dict_keys_set. }
  assert (∀ k, k ∈ dict_keys d
               ↔ k ∈ (λ e : nat * gset L, inr e.2) <$> enumerate fl
                 ∨ k ∈ dict_keys d1) as Hk2.
  { eapply (for_each_dict_set_keys (λ e : nat * gset L, inr e.2));
      [|exact Hrun].
    intros [i F] da db. cbn. destruct (py_index gens _); [|done].
    rewrite py_bind_Ret. intros [= <-] k. apply dict_keys_set. }
  split.
  - intros x Hx. apply dict_lookup_is_Some, Hk2. right. apply Hk1. left.
    change (λ e : nat * L, inl e.2) with (inl (B:=gset L) ∘ (snd : nat * L → L)).
    rewrite list_fmap_compose, fmap_snd_enumerate.
    by apply list_elem_of_fmap_2.
  - intros F HF. apply dict_lookup_is_Some, Hk2. left.
    change (λ e : nat * gset L, inr e.2)
      with (inr (A:=L) ∘ (snd : nat * gset L → gset L)).
    rewrite list_fmap_compose, fmap_snd_enumerate.
    by apply list_elem_of_fmap_2.
Qed.

(** The body of [for i in E] returns, and none of its terms comes from the
    branch [elif G < F]: that branch sits under [if i in G] and
    [elif not i in G], one of which always holds. *)
Lemma fy_element_terms_spec M fl (d : dict (L + gset L) P) F G (i : L) :
  (∀ F', F' ∈ fl → is_Some (dict_lookup d (inr F'))) →
  is_Some (dict_lookup d (inl i)) → F ∈ fl →
  ∃ terms, fy_element_terms M fl d F G i = Ret terms
           ∧ Forall (λ t, t.1 ≠ FyNested) terms.
Proof.
  intros Hdfl [yi Hyi] HF. destruct (Hdfl F HF) as [xF HxF].
  unfold fy_element_terms.
  destruct (for_each_returns fl
    (λ Hf '(term, term1),
       term' ← (if flat_mem i Hf then xH ← dict_get d (inr Hf);
                                       Ret (padd term xH)
                else Ret term);
       term1' ← (if flat_lt G Hf then xH ← dict_get d (inr Hf);
                                       Ret (padd term1 xH)
                 else Ret term1);
       Ret (term', term1'))
    (pzero, pzero)) as [[term term1] ->].
  { intros Hf [t t1] HHf. destruct (Hdfl Hf HHf) as [xH HxH].
    rewrite (dict_get_lookup _ _ _ HxH).
    destruct (flat_mem i Hf), (flat_lt G Hf); by eexists. }
  rewrite py_bind_Ret.
  rewrite (dict_get_lookup _ _ _ Hyi), (dict_get_lookup _ _ _ HxF).
  destruct (p_is_zero term), (p_is_zero term1), (flat_mem i G);
    cbn; eexists; (split; [reflexivity|]);
    repeat (apply Forall_cons; split; [done|]); apply Forall_nil_2.
Qed.

(** C10. On the ideal that [__init__] builds for any matroid, the engine
    of the presentation of Feitchner and Yuzvinsky returns, and no term of
    its output was appended by the statement under [elif G < F]. *)
Theorem fy_nested_branch_unreachable M (I : AugmentedChowRingIdeal_fy) :
  fy_init M = Ret I →
  ∃ traced, fy_combinatorial_traced I = Ret traced
            ∧ fy_combinatorial I = Ret (traced.*2)
            ∧ Forall (λ t, t.1 ≠ FyNested) traced.
Proof.
  intros Hinit. unfold fy_init in Hinit. cbv zeta in Hinit.
  destruct (fy_fill_dict _ _ _) as [d|e] eqn:Hd; [|done].
  rewrite py_bind_Ret in Hinit.
  destruct (fy_gens_constructor _ _ _ _) as [g|e]; [|done].
  rewrite py_bind_Ret in Hinit. injection Hinit as <-.
  apply fy_fill_dict_keys in Hd as [HdE Hdfl].
  unfold fy_combinatorial, fy_combinatorial_traced.
  cbn [fy_matroid fy_flats fy_flats_generator].
  match goal with
  | |- ∃ traced, ?m = _ ∧ _ =>
      assert (∃ traced, m = Ret traced
                        ∧ Forall (λ t, t.1 ≠ FyNested) traced)
        as (traced & Htr & Hno)
  end.
  { apply collect_returns_Forall. intros F HF.
    apply collect_returns_Forall. intros G HG.
    destruct (collect_returns_Forall (λ t : fy_origin * P, t.1 ≠ FyNested)
                (groundset M)
                (fy_element_terms M (proper_flats M) d F G))
      as (r & Hr & Hnr).
    { intros i Hi. apply fy_element_terms_spec; auto. }
    rewrite Hr.
    destruct (Hdfl F HF) as [xF HxF]. destruct (Hdfl G HG) as [xG HxG].
    rewrite (dict_get_lookup _ _ _ HxF), (dict_get_lookup _ _ _ HxG).
    destruct (not_nested F G); cbn; eexists; (split; [reflexivity|]).
    - apply Forall_cons. by split.
    - done. }
  exists traced. rewrite Htr. done.
Qed.
End FYEngine.

(** ** Evaluation of integer polynomials *)

Section Evaluation.
Import ZPoly.
Variable ρ : nat → dual.

Lemma dual_eq (u v : dual) : u.1 = v.1 → u.2 = v.2 → u = v.
Proof. destruct u, v. cbn. by intros -> ->. Qed.

Ltac dual_ring :=
  apply dual_eq; unfold dadd, dmul, dconst; cbn [fst snd]; ring.

Lemma mono_cmp_eq (a b : mono) : mono_cmp a b = Eq → a = b.
Proof.
  revert b. induction a as [|x a IH]; intros [|y b]; cbn; try done.
  destruct (Nat.compare x y) eqn:Hc; try done.
  apply Nat.compare_eq in Hc as ->. intros ->%IH. done.
Qed.

Lemma eval_mono_cons (x : nat) (m : mono) :
  eval_mono ρ (x :: m) = dmul (ρ x) (eval_mono ρ m).
Proof. reflexivity. Qed.

Lemma eval_mono_ins (x : nat) (m : mono) :
  eval_mono ρ (mono_ins x m) = dmul (ρ x) (eval_mono ρ m).
Proof.
  induction m as [|y m IH]; [done|].
  cbn [mono_ins]. destruct (x <=? y)%nat; [done|].
  rewrite !eval_mono_cons, IH. dual_ring.
Qed.

Lemma eval_mono_mul (a b : mono) :
  eval_mono ρ (mono_mul a b) = dmul (eval_mono ρ a) (eval_mono ρ b).
Proof.
  induction a as [|x a IH].
  - change (mono_mul [] b) with b. change (eval_mono ρ []) with (dconst 1).
    dual_ring.
  - change (mono_mul (x :: a) b) with (mono_ins x (mono_mul a b)).
    rewrite eval_mono_ins, IH, eval_mono_cons. dual_ring.
Qed.

Lemma eval_cons (m : mono) (c : Z) (p : poly) :
  eval ρ ((m, c) :: p) = dadd (dmul (dconst c) (eval_mono ρ m)) (eval ρ p).
Proof. reflexivity. Qed.

Lemma eval_add_term (m : mono) (c : Z) (p : poly) :
  eval ρ (add_term m c p)
  = dadd (dmul (dconst c) (eval_mono ρ m)) (eval ρ p).
Proof.
  induction p as [|[m' c'] p IH]; cbn [add_term].
  - change (eval ρ []) with (dconst 0).
    destruct (Z.eqb_spec c 0) as [->|_].
    + change (eval ρ []) with (dconst 0). dual_ring.
    + rewrite eval_cons. done.
  - destruct (mono_cmp m m') eqn:Hc.
    + apply mono_cmp_eq in Hc as ->.
      destruct (Z.eqb_spec (c + c') 0) as [Hz|_].
      * rewrite eval_cons. replace c with (- c')%Z by lia. dual_ring.
      * rewrite !eval_cons. dual_ring.
    + destruct (Z.eqb_spec c 0) as [->|_].
      * rewrite eval_cons. dual_ring.
      * by rewrite !eval_cons.
    + rewrite !eval_cons, IH. dual_ring.
Qed.

Lemma eval_add (p q : poly) : eval ρ (add p q) = dadd (eval ρ p) (eval ρ q).
Proof.
  induction p as [|[m c] p IH].
  - change (add [] q) with q. change (eval ρ []) with (dconst 0). dual_ring.
  - change (add ((m, c) :: p) q) with (add_term m c (add p q)).
    rewrite eval_add_term, IH, eval_cons. dual_ring.
Qed.

Lemma eval_mul_term (m : mono) (c : Z) (q : poly) :
  eval ρ (mul_term m c q)
  = dmul (dmul (dconst c) (eval_mono ρ m)) (eval ρ q).
Proof.
  induction q as [|[m' c'] q IH].
  - change (mul_term m c []) with ([] : poly).
    change (eval ρ []) with (dconst 0). dual_ring.
  - change (mul_term m c ((m', c') :: q))
      with (add_term (mono_mul m m') (c * c') (mul_term m c q)).
    rewrite eval_add_term, IH, eval_mono_mul, eval_cons. dual_ring.
Qed.

Lemma eval_mul (p q : poly) : eval ρ (mul p q) = dmul (eval ρ p) (eval ρ q).
Proof.
  induction p as [|[m c] p IH].
  - change (mul [] q) with ([] : poly).
    change (eval ρ []) with (dconst 0). dual_ring.
  - change (mul ((m, c) :: p) q) with (add (mul_term m c q) (mul p q)).
    rewrite eval_add, IH, eval_mul_term, eval_cons. dual_ring.
Qed.

(** A point where every generator vanishes is a point where every member
    of the ideal vanishes. *)
Lemma in_ideal_vanishes (gens : list poly) (p : poly) :
  Forall (λ g, eval ρ g = dconst 0) gens →
  in_ideal gens p → eval ρ p = dconst 0.
Proof.
  intros Hgens (cs & _ & <-). unfold combination.
  revert cs. induction Hgens as [|g gens Hg _ IH]; intros [|c cs]; try done.
  cbn [zip_with fold_right]. rewrite eval_add, eval_mul, Hg, IH. dual_ring.
Qed.
End Evaluation.


(** ** Running the constructors *)

Section RunInit.
Context {L : Type} `{Countable L} {P : Type} `{PolyRing P}.

Lemma nonaug_init_eq (M : Matroid L) (I : ChowRingIdeal_nonaug) :
  let fl := proper_flats M in
  let d := dict_of (zip fl (ring_gens (length fl))) in
  na_matroid I = M → na_flats_generator I = d → na_ring I = length fl →
  nonaug_gens_constructor M d (length fl) = Ret (na_gens I) →
  nonaug_init M = Ret I.
Proof.
  destruct I as [M' d' n g]. cbn. intros -> -> -> Hg.
  unfold nonaug_init. by rewrite Hg.
Qed.

Lemma fy_init_eq (M : Matroid L) (I : AugmentedChowRingIdeal_fy) :
  let fl := proper_flats M in
  let n := (length (groundset M) + length fl)%nat in
  fy_matroid I = M → fy_flats I = fl → fy_ring I = n →
  fy_fill_dict (groundset M) fl (ring_gens n) = Ret (fy_flats_generator I) →
  fy_gens_constructor M fl (fy_flats_generator I) n = Ret (fy_gens I) →
  fy_init M = Ret I.
Proof.
  destruct I as [M' fl' d n g]. cbn. intros -> -> -> Hd Hg.
  unfold fy_init. cbv zeta. rewrite Hd, py_bind_Ret, Hg. done.
Qed.
End RunInit.

(** ** The module on concrete matroids *)

Module Runs.
Import Examples.

Lemma M_abc_wf : matroid_wf M_abc.
Proof.
  split; refine (bool_decide_unpack _ _); by vm_compute.
Qed.

Lemma M_point_groundset : NoDup (groundset M_point).
Proof. refine (bool_decide_unpack _ _). by vm_compute. Qed.

Lemma M_loop_groundset : NoDup (groundset M_loop).
Proof. refine (bool_decide_unpack _ _). by vm_compute. Qed.

Lemma I_abc_init : nonaug_init M_abc = Ret I_abc.
Proof. apply nonaug_init_eq; [reflexivity|by vm_compute..]. Qed.

Lemma I_cycle3_init : nonaug_init M_cycle3 = Ret I_cycle3.
Proof. apply nonaug_init_eq; [reflexivity|by vm_compute..]. Qed.

Lemma FY_abc_init : fy_init M_abc = Ret FY_abc.
Proof. apply fy_init_eq; [reflexivity|by vm_compute..]. Qed.

Lemma FY_point_init : fy_init M_point = Ret FY_point.
Proof. apply fy_init_eq; [reflexivity|by vm_compute..]. Qed.

(** C1. On [BasisMatroid(groundset='abc', bases=['ab', 'ac'])] the
    non-augmented constructor builds the generators [Aa*Abc], [Aa - Abc]
    (twice) and [0], and the engine returns [Aa, Abc]. The variable [Aa]
    lies in the ideal of the engine's output and not in the ideal of the
    generators: the two sequences do not generate the same ideal. *)
Theorem nonaug_engine_changes_ideal :
  let gb := [ZPoly.gen 0; ZPoly.gen 1] in
  nonaug_init M_abc = Ret I_abc
  ∧ (∀ generic, nonaug_groebner_basis generic I_abc "" = Ret (PySequence gb))
  ∧ ZPoly.in_ideal gb (ZPoly.gen 0)
  ∧ ¬ ZPoly.in_ideal (na_gens I_abc) (ZPoly.gen 0)
  ∧ ¬ ZPoly.same_ideal gb (na_gens I_abc).
Proof.
  intros gb.
  assert (ZPoly.in_ideal gb (ZPoly.gen 0)) as Hin.
  { exists [ZPoly.one; ZPoly.zero]. split; by vm_compute. }
  assert (¬ ZPoly.in_ideal (na_gens I_abc) (ZPoly.gen 0)) as Hout.
  { intros Hmem.
    apply (in_ideal_vanishes (λ _, (0%Z, 1%Z))) in Hmem; [discriminate|].
    repeat (apply Forall_cons; split; [by vm_compute|]). apply Forall_nil_2. }
  split; [exact I_abc_init|]. split; [intros generic; by vm_compute|].
  split; [exact Hin|]. split; [exact Hout|].
  intros Hsame. apply Hout, Hsame, Hin.
Qed.

(** C4. On the same matroid the engine enumerates the subset
    [{a}, {b, c}]. Its two flats are incomparable, so it is not a chain;
    the test of the engine compares cardinalities only and takes it for
    one. The subset contributes nothing, and the product [Aa*Abc] is not
    in the output. *)
Theorem nonaug_chain_test_misses_pair :
  let Fa : gset string := {["a"]} in
  let Fbc : gset string := {["b"; "c"]} in
  nonaug_init M_abc = Ret I_abc
  ∧ dict_keys (na_flats_generator I_abc) = [Fa; Fbc]
  ∧ [Fa; Fbc] ∈ all_subsets [Fa; Fbc]
  ∧ incomparable Fa Fbc = true
  ∧ ¬ is_chain [Fa; Fbc]
  ∧ adjacent_same_len (sorted_by_len [Fa; Fbc]) = false
  ∧ nonaug_subset_terms (na_flats_generator I_abc) [Fa; Fbc]
      (dict_of ((λ F, (F, rank M_abc F)) <$> [Fa; Fbc])) [Fa; Fbc]
    = Ret []
  ∧ nonaug_combinatorial I_abc = Ret [ZPoly.gen 0; ZPoly.gen 1]
  ∧ ZPoly.mul (ZPoly.gen 0) (ZPoly.gen 1) ∉ [ZPoly.gen 0; ZPoly.gen 1].
Proof.
  intros Fa Fbc.
  split; [exact I_abc_init|]. split; [reflexivity|].
  split; [refine (bool_decide_unpack _ _); by vm_compute|].
  split; [by vm_compute|]. split.
  { intros Hc.
    assert (¬ Fa ⊆ Fbc) as H1
      by (refine (bool_decide_unpack _ _); by vm_compute).
    assert (¬ Fbc ⊆ Fa) as H2
      by (refine (bool_decide_unpack _ _); by vm_compute).
    destruct (Hc Fa Fbc); [left|right; left|done|done]. }
  split; [by vm_compute|]. split; [by vm_compute|].
  split; [by vm_compute|].
  refine (bool_decide_unpack _ _). by vm_compute.
Qed.

(** C5. On [BasisMatroid(groundset='abc', bases=['ab', 'ac'])] the proper
    flats are [{a}] and [{b, c}], one incomparable pair, and the sequence
    of the claim is the product [Ba*Bbc] and the three linear forms. The
    constructor builds four products before the linear forms: its test
    [not (F < G or G < F)] holds of a flat and itself, which is not an
    incomparable pair, and of the pair in both orders, so it adds [Ba^2],
    [Bbc*Ba] and [Bbc^2]. The square [Ba^2] lies in the ideal of the built
    generators and not in the ideal of the generators of the claim: the
    constructor presents another ideal. *)
Theorem fy_constructor_adds_squares :
  let Fa : gset string := {["a"]} in
  let Fbc : gset string := {["b"; "c"]} in
  let Aa := ZPoly.gen 0 in
  let Ab := ZPoly.gen 1 in
  let Ac := ZPoly.gen 2 in
  let Ba := ZPoly.gen 3 in
  let Bbc := ZPoly.gen 4 in
  fy_init M_abc = Ret FY_abc
  ∧ fy_flats FY_abc = [Fa; Fbc]
  ∧ count_incomparable_pairs [Fa; Fbc] = 1%nat
  ∧ incomparable Fa Fa = false
  ∧ not_nested Fa Fa = true
  ∧ fy_gens_claimed M_abc
    = [ZPoly.mul Ba Bbc;
       ZPoly.sub Aa Bbc; ZPoly.sub Ab Ba; ZPoly.sub Ac Ba]
  ∧ fy_gens FY_abc
    = [ZPoly.mul Ba Ba; ZPoly.mul Ba Bbc; ZPoly.mul Bbc Ba; ZPoly.mul Bbc Bbc;
       ZPoly.sub Aa Bbc; ZPoly.sub Ab Ba; ZPoly.sub Ac Ba]
  ∧ ¬ fy_gens FY_abc ≡ₚ fy_gens_claimed M_abc
  ∧ ZPoly.in_ideal (fy_gens FY_abc) (ZPoly.mul Ba Ba)
  ∧ ¬ ZPoly.in_ideal (fy_gens_claimed M_abc) (ZPoly.mul Ba Ba)
  ∧ ¬ ZPoly.same_ideal (fy_gens FY_abc) (fy_gens_claimed M_abc).
Proof.
  intros Fa Fbc Aa Ab Ac Ba Bbc.
  assert (fy_gens_claimed M_abc
          = [ZPoly.mul Ba Bbc;
             ZPoly.sub Aa Bbc; ZPoly.sub Ab Ba; ZPoly.sub Ac Ba]) as Hclaimed
    by (by vm_compute).
  assert (ZPoly.in_ideal (fy_gens FY_abc) (ZPoly.mul Ba Ba)) as Hin.
  { exists [ZPoly.one; ZPoly.zero; ZPoly.zero; ZPoly.zero;
            ZPoly.zero; ZPoly.zero; ZPoly.zero].
    split; by vm_compute. }
  assert (¬ ZPoly.in_ideal (fy_gens_claimed M_abc) (ZPoly.mul Ba Ba)) as Hout.
  { rewrite Hclaimed. intros Hmem.
    apply (in_ideal_vanishes
             (λ v, if bool_decide (v ∈ [1; 2; 3]%nat) then (1%Z, 0%Z)
                   else (0%Z, 0%Z))) in Hmem; [discriminate|].
    repeat (apply Forall_cons; split; [by vm_compute|]). apply Forall_nil_2. }
  split; [exact FY_abc_init|]. split; [reflexivity|].
  split; [by vm_compute|]. split; [by vm_compute|]. split; [by vm_compute|].
  split; [exact Hclaimed|]. split; [reflexivity|].
  split.
  { rewrite Hclaimed. intros Hperm%Permutation_length. discriminate. }
  split; [exact Hin|]. split; [exact Hout|].
  intros Hsame. apply Hout, Hsame, Hin.
Qed.

(** C9, as amended. On the graphic matroid of the 3-cycle the engine of
    the non-augmented presentation returns seven terms: the three
    variables [A0], [A1], [A2], their three products two by two, and the
    product of the three. *)
Theorem cycle3_basis :
  let gb := [ZPoly.gen 0; ZPoly.gen 1; ZPoly.gen 2] ++ cycle3_claimed_basis in
  nonaug_init M_cycle3 = Ret I_cycle3
  ∧ nonaug_groebner_basis ZPoly.generic_stand_in I_cycle3 ""
    = Ret (PySequence gb)
  ∧ length gb = 7%nat.
Proof.
  intros gb. split; [exact I_cycle3_init|]. split; by vm_compute.
Qed.

(** C9 as worded fails: the output is not the four products, it also holds
    the variable [A0], which is none of them. *)
Lemma cycle3_basis_counterexample :
  ∃ gb,
    nonaug_init M_cycle3 = Ret I_cycle3
    ∧ nonaug_groebner_basis ZPoly.generic_stand_in I_cycle3 ""
      = Ret (PySequence gb)
    ∧ ZPoly.gen 0 ∈ gb
    ∧ (ZPoly.gen 0 ∉ cycle3_claimed_basis)
    ∧ ¬ (gb ≡ₚ cycle3_claimed_basis).
Proof.
  exists ([ZPoly.gen 0; ZPoly.gen 1; ZPoly.gen 2] ++ cycle3_claimed_basis).
  split; [exact I_cycle3_init|]. split; [by vm_compute|].
  split; [left|].
  split; [refine (bool_decide_unpack _ _); by vm_compute|].
  intros Hperm%Permutation_length. vm_compute in Hperm. discriminate.
Qed.

(** C3 as worded fails: on the instance that the constructor has just
    built, a selector that is neither of the two supported ones makes the
    call return [None]; it does not raise. *)
Lemma unsupported_selector_counterexample :
  nonaug_init M_cycle3 = Ret I_cycle3
  ∧ nonaug_call ZPoly.generic_stand_in ZPoly.generic_cached_stand_in
      I_cycle3 (after_calls []) "buchberger" = (Ret PyNone, ClassMethod)
  ∧ ¬ raises
        (nonaug_call ZPoly.generic_stand_in ZPoly.generic_cached_stand_in
           I_cycle3 (after_calls []) "buchberger").1.
Proof.
  split; [exact I_cycle3_init|]. split; [reflexivity|].
  intros [e He]. discriminate.
Qed.

(** C7 as worded fails: on the matroid of rank 1 on one element, the
    generator sequence of the presentation of Feitchner and Yuzvinsky is
    the variable [A0], which is not zero, and the ideal holds [A0]. *)
Lemma small_rank_counterexample :
  (full_rank M_point ≤ 1)%Z
  ∧ fy_init M_point = Ret FY_point
  ∧ fy_gens FY_point = [ZPoly.gen 0]
  ∧ ¬ Forall (λ g, g = ZPoly.zero) (fy_gens FY_point)
  ∧ ZPoly.in_ideal (fy_gens FY_point) (ZPoly.gen 0)
  ∧ ZPoly.gen 0 ≠ ZPoly.zero.
Proof.
  split; [by vm_compute|]. split; [exact FY_point_init|].
  split; [reflexivity|]. split_and!.
  - intros Hall. apply Forall_cons in Hall as [Hz _]. discriminate.
  - exists [ZPoly.one]. split; by vm_compute.
  - discriminate.
Qed.

(** C8 as worded fails: on the matroid of rank 0 on one loop none of the
    three constructors raises. *)
Lemma rank_zero_counterexample :
  full_rank M_loop = 0%Z
  ∧ ¬ raises (nonaug_init (P:=ZPoly.poly) M_loop)
  ∧ ¬ raises (fy_init (P:=ZPoly.poly) M_loop)
  ∧ ¬ raises (af_init (P:=ZPoly.poly) M_loop).
Proof.
  assert (full_rank M_loop = 0%Z) as Hr by (by vm_compute).
  destruct (small_rank_init (P:=ZPoly.poly) M_loop)
    as (Hna & (I & Hfy & _) & Haf); [lia|exact M_loop_groundset|].
  split; [exact Hr|].
  split_and!; intros [e He]; congruence.
Qed.

(** *** The general statements at a concrete matroid *)

Lemma unsupported_selector_witness :
  ("constructed" ∉ [""; "buchberger"])
  ∧ "buchberger" ≠ "" ∧ "buchberger" ≠ "constructed"
  ∧ nonaug_call ZPoly.generic_stand_in ZPoly.generic_cached_stand_in
      I_cycle3 (after_calls [""; "buchberger"]) "buchberger"
    = (Ret PyNone, ClassMethod)
  ∧ fy_call ZPoly.generic_stand_in ZPoly.generic_cached_stand_in
      FY_point (after_calls [""; "buchberger"]) "buchberger"
    = (Ret PyNone, ClassMethod)
  ∧ af_call ZPoly.generic_stand_in ZPoly.generic_cached_stand_in
      {| af_matroid := M_loop; af_flats := []; af_flats_generator := [];
         af_ring := 0; af_gens := [] |}
      (after_calls [""; "buchberger"]) "buchberger"
    = (Ret PyNone, ClassMethod).
Proof.
  assert ("constructed" ∉ [""; "buchberger"]) as Hfresh.
  { intros Hin. apply elem_of_cons in Hin as [Heq|Hin]; [discriminate|].
    apply list_elem_of_singleton in Hin. discriminate. }
  split; [exact Hfresh|]. split; [discriminate|]. split; [discriminate|].
  apply (unsupported_selector_returns_none ZPoly.generic_stand_in
           ZPoly.generic_cached_stand_in [""; "buchberger"] "buchberger");
    [exact Hfresh|discriminate|discriminate].
Defined.

Lemma nonaug_generator_counts_witness :
  matroid_wf M_abc
  ∧ ∃ (I : ChowRingIdeal_nonaug (P:=ZPoly.poly)) Q Lin,
      nonaug_init M_abc = Ret I ∧ na_gens I = Q ++ Lin
      ∧ length Q = count_incomparable_pairs (proper_flats M_abc)
      ∧ length Lin = choose (length (groundset M_abc)) 2.
Proof.
  split; [exact M_abc_wf|].
  destruct (nonaug_generator_counts (P:=ZPoly.poly) M_abc M_abc_wf)
    as (I & Q & Lin & HI & Hg & _ & HQ & _ & HL).
  exists I, Q, Lin. split; [exact HI|]. split; [exact Hg|].
  split; [exact HQ|exact HL].
Defined.

Lemma small_rank_witness :
  (full_rank M_point ≤ 1)%Z ∧ NoDup (groundset M_point)
  ∧ proper_flats M_point = []
  ∧ (∃ I, nonaug_init (P:=ZPoly.poly) M_point = Ret I
          ∧ na_gens I
            = replicate (choose (length (groundset M_point)) 2)
                        (psub pzero pzero))
  ∧ (∃ I, fy_init (P:=ZPoly.poly) M_point = Ret I ∧ fy_flats I = []
          ∧ fy_gens I
            = (λ x, psub (fy_element_var (groundset M_point) x) pzero)
                <$> groundset M_point)
  ∧ (∃ I, af_init (P:=ZPoly.poly) M_point = Ret I ∧ af_flats I = []
          ∧ af_gens I = []).
Proof.
  assert (full_rank M_point ≤ 1)%Z as Hr by (by vm_compute).
  split; [exact Hr|]. split; [exact M_point_groundset|].
  exact (small_rank_generators (P:=ZPoly.poly) M_point Hr M_point_groundset).
Defined.

Lemma rank_zero_witness :
  (full_rank M_loop ≤ 0)%Z ∧ NoDup (groundset M_loop)
  ∧ (∃ I, nonaug_init (P:=ZPoly.poly) M_loop = Ret I ∧ na_ring I = 0%nat)
  ∧ (∃ I, fy_init (P:=ZPoly.poly) M_loop = Ret I
          ∧ fy_ring I = length (groundset M_loop))
  ∧ (∃ I, af_init (P:=ZPoly.poly) M_loop = Ret I ∧ af_ring I = 0%nat).
Proof.
  assert (full_rank M_loop ≤ 0)%Z as Hr by (by vm_compute).
  split; [exact Hr|]. split; [exact M_loop_groundset|].
  exact (rank_zero_is_accepted (P:=ZPoly.poly) M_loop Hr M_loop_groundset).
Defined.

Lemma fy_nested_branch_witness :
  fy_init M_abc = Ret FY_abc
  ∧ ∃ traced, fy_combinatorial_traced FY_abc = Ret traced
              ∧ fy_combinatorial FY_abc = Ret (traced.*2)
              ∧ Forall (λ t, t.1 ≠ FyNested) traced.
Proof.
  split; [exact FY_abc_init|].
  exact (fy_nested_branch_unreachable M_abc FY_abc FY_abc_init).
Defined.
End Runs.

(** * Further properties of the module *)

(** ** The subsets the non-augmented engine enumerates *)

Section Subsets.
Context {A : Type}.
Implicit Types (l s : list A) (r : nat).

Lemma combinations_nil_size l : combinations l 0 = [[]].
Proof. by destruct l. Qed.

Lemma elem_of_combinations l r s :
  s ∈ combinations l r ↔ s `sublist_of` l ∧ length s = r.
Proof.
  revert r s. induction l as [|x l IH]; intros [|r] s; cbn [combinations].
  - rewrite list_elem_of_singleton, sublist_nil_r.
    split; [by intros ->|by intros [-> _]].
  - rewrite elem_of_nil, sublist_nil_r.
    split; [done|]. by intros [-> ?].
  - rewrite list_elem_of_singleton. split.
    + intros ->. split; [apply sublist_nil_l|done].
    + intros [_ Hlen]. by destruct s.
  - rewrite elem_of_app, list_elem_of_fmap, sublist_cons_r. split.
    + intros [(s' & -> & [Hs' Hl]%IH)|[Hs Hl]%IH].
      * split; [right; by exists s'|]. cbn. by rewrite Hl.
      * split; [by left|done].
    + intros [[Hs|(s' & -> & Hs')] Hl].
      * right. by apply IH.
      * left. exists s'. split; [done|]. apply IH. split; [done|].
        cbn in Hl. lia.
Qed.

Lemma length_combinations l r :
  length (combinations l r) = choose (length l) r.
Proof.
  revert r. induction l as [|x l IH]; intros [|r]; cbn [combinations]; try done.
  rewrite length_app, length_map, !IH. done.
Qed.

Lemma choose_0_S r : choose 0 (S r) = 0%nat.
Proof. done. Qed.

Lemma choose_n_0 (n : nat) : choose n 0 = 1%nat.
Proof. by destruct n. Qed.

Lemma sum_choose_pascal (n m k : nat) :
  list_sum ((λ r, choose (S n) (S r)) <$> seq k m)
  = (list_sum (choose n <$> seq k m)
     + list_sum ((λ r, choose n (S r)) <$> seq k m))%nat.
Proof.
  revert k. induction m as [|m IHm]; intros k; [done|].
  cbn [seq fmap list_fmap list_sum fold_right].
  change (fold_right Init.Nat.add 0%nat ?l) with (list_sum l).
  rewrite IHm. cbn [choose]. lia.
Qed.

Lemma sum_choose_row (n m : nat) :
  (n < m)%nat → list_sum (choose n <$> seq 0 m) = (2 ^ n)%nat.
Proof.
  revert m. induction n as [|n IH]; intros m Hm.
  - destruct m as [|m]; [lia|]. cbn [seq fmap list_fmap list_sum fold_right].
    change (fold_right Init.Nat.add 0%nat ?l) with (list_sum l).
    assert (∀ k : nat, list_sum (choose 0 <$> seq (S k) m) = 0%nat) as H0.
    { clear Hm. induction m as [|m IHm]; intros k; [done|].
      cbn [seq fmap list_fmap list_sum fold_right].
      change (fold_right Init.Nat.add 0%nat ?l) with (list_sum l).
      by rewrite IHm. }
    by rewrite H0.
  - destruct m as [|m]; [lia|].
    assert (∀ k : nat,
      list_sum (choose k <$> seq 0 (S m))
      = (1 + list_sum ((λ r, choose k (S r)) <$> seq 0 m))%nat) as Hsplit.
    { intros k. cbn [seq fmap list_fmap list_sum fold_right].
      change (fold_right Init.Nat.add 0%nat ?l) with (list_sum l).
      rewrite choose_n_0. f_equal. rewrite <- fmap_S_seq.
      by rewrite <- list_fmap_compose. }
    rewrite Hsplit.
    rewrite sum_choose_pascal.
    pose proof (Hsplit n) as Hn.
    rewrite (IH m) by lia. rewrite (IH (S m)) in Hn by lia.
    rewrite Nat.pow_succ_r'. lia.
Qed.

Lemma elem_of_all_subsets_gen l s :
  s ∈ flat_map (combinations l) (seq 0 (length l + 1)) ↔ s `sublist_of` l.
Proof.
  rewrite elem_of_flat_map. split.
  - intros (r & _ & [Hs _]%elem_of_combinations). done.
  - intros Hs. exists (length s). split.
    + apply elem_of_seq. apply sublist_length in Hs. lia.
    + by apply elem_of_combinations.
Qed.

Lemma length_all_subsets_gen l :
  length (flat_map (combinations l) (seq 0 (length l + 1)))
  = (2 ^ length l)%nat.
Proof.
  rewrite length_flat_map.
  rewrite <- (sum_choose_row (length l) (length l + 1)) by lia.
  f_equal. apply map_ext. intros r. apply length_combinations.
Qed.
End Subsets.

Section SubsetsOfFlats.
Context {L : Type} `{Countable L}.

(** X1. The loop [for subset in subsets] of the non-augmented engine runs
    over exactly the sub-sequences of the list of flats, each position
    kept or dropped: a list is enumerated if and only if it is a
    sub-sequence, and the enumeration has [2 ^ len(flats)] entries. *)
Theorem all_subsets_enumerates_sublists (fl : list (gset L)) :
  (∀ subset, subset ∈ all_subsets fl ↔ subset `sublist_of` fl)
  ∧ length (all_subsets fl) = (2 ^ length fl)%nat.
Proof.
  split.
  - intros subset. apply elem_of_all_subsets_gen.
  - apply length_all_subsets_gen.
Qed.
End SubsetsOfFlats.

(** ** The chain test of the non-augmented engine *)

Section ChainTest.
Context {L : Type} `{Countable L} {P : Type} `{PolyRing P}.
Implicit Types (F G : gset L) (s subset : list (gset L)).

Lemma insert_by_len_perm F s : insert_by_len F s ≡ₚ F :: s.
Proof.
  induction s as [|G s IH]; cbn [insert_by_len]; [done|].
  destruct (size F <=? size G)%nat; [done|].
  rewrite IH. apply Permutation_swap.
Qed.

Lemma sorted_by_len_perm subset : sorted_by_len subset ≡ₚ subset.
Proof.
  induction subset as [|F subset IH]; [done|].
  cbn [sorted_by_len fold_right]. fold (sorted_by_len subset).
  by rewrite insert_by_len_perm, IH.
Qed.

Lemma insert_by_len_sorted F s :
  StronglySorted (λ A B : gset L, (size A ≤ size B)%nat) s →
  StronglySorted (λ A B : gset L, (size A ≤ size B)%nat) (insert_by_len F s).
Proof.
  induction s as [|G s IH]; intros Hs; cbn [insert_by_len].
  { apply SSorted_cons; [apply SSorted_nil|apply Forall_nil_2]. }
  apply StronglySorted_cons in Hs as [HG Hs].
  destruct (Nat.leb_spec (size F) (size G)) as [Hle|Hgt].
  - apply StronglySorted_cons. split.
    + apply Forall_cons. split; [done|].
      apply (Forall_impl _ _ _ HG). intros B HB. lia.
    + by apply StronglySorted_cons.
  - apply StronglySorted_cons. split; [|by apply IH].
    rewrite insert_by_len_perm. apply Forall_cons. split; [lia|done].
Qed.

Lemma sorted_by_len_sorted subset :
  StronglySorted (λ A B : gset L, (size A ≤ size B)%nat)
                 (sorted_by_len subset).
Proof.
  induction subset as [|F subset IH]; [apply SSorted_nil|].
  cbn [sorted_by_len fold_right]. by apply insert_by_len_sorted.
Qed.

Lemma adjacent_same_len_split s :
  adjacent_same_len s = true →
  ∃ l1 F G l2, s = l1 ++ F :: G :: l2 ∧ size G = size F.
Proof.
  induction s as [|F s IH]; [done|]. destruct s as [|G s]; [done|].
  cbn [adjacent_same_len]. intros [Heq|Hrec]%orb_true_iff.
  - exists [], F, G, s. split; [done|]. by apply Nat.eqb_eq.
  - destruct (IH Hrec) as (l1 & F' & G' & l2 & Hs & Hsize).
    exists (F :: l1), F', G', l2. split; [|done]. cbn. by rewrite Hs.
Qed.

Lemma has_nested_pair_intro s l1 F l2 G :
  s = l1 ++ F :: l2 → G ∈ l2 → F ≠ G → F ⊆ G → has_nested_pair s = true.
Proof.
  intros -> HG Hne Hsub. induction l1 as [|F' l1 IH].
  - cbn [app has_nested_pair]. apply orb_true_iff. left.
    apply existsb_exists. exists G. split; [by apply list_elem_of_In|].
    apply andb_true_iff. split; by apply bool_decide_eq_true_2.
  - cbn [app has_nested_pair]. apply orb_true_iff. by right.
Qed.

(** Two neighbours of equal cardinality in the sorted list are two
    different members of the subset, and neither contains the other. *)
Lemma adjacent_same_len_not_chain subset :
  NoDup subset → adjacent_same_len (sorted_by_len subset) = true →
  ¬ is_chain subset.
Proof.
  intros Hnd (l1 & F & G & l2 & Hs & Hsize)%adjacent_same_len_split Hchain.
  assert (NoDup (sorted_by_len subset)) as Hnd'.
  { by rewrite sorted_by_len_perm. }
  rewrite Hs in Hnd'. apply NoDup_app in Hnd' as (_ & _ & Hnd').
  apply NoDup_cons in Hnd' as [HFG _].
  assert (F ∈ subset ∧ G ∈ subset) as [HF HG].
  { rewrite <- !(sorted_by_len_perm subset), Hs.
    rewrite !elem_of_app, !elem_of_cons. naive_solver. }
  assert (F = G) as Heq.
  { destruct (Hchain F G HF HG) as [Hsub|Hsub].
    - apply (set_subseteq_size_eq F G Hsub). lia.
    - symmetry. apply (set_subseteq_size_eq G F Hsub). lia. }
  apply HFG. rewrite Heq. left.
Qed.

(** A strictly nested pair in the subset is found by the second loop. *)
Lemma nested_pair_found subset F G :
  F ∈ subset → G ∈ subset → F ⊂ G →
  has_nested_pair (sorted_by_len subset) = true.
Proof.
  intros HF HG Hlt.
  pose proof (subset_size F G Hlt) as Hsize.
  pose proof (sorted_by_len_sorted subset) as Hsorted.
  rewrite <- (sorted_by_len_perm subset) in HF, HG.
  apply list_elem_of_split in HF as (l1 & l2 & Hs).
  rewrite Hs in HG, Hsorted.
  assert (F ≠ G) as Hne by (intros ->; lia).
  apply elem_of_app in HG as [HG|HG].
  - assert (F ∈ F :: l2) as HF' by left.
    pose proof (StronglySorted_app_1_elem_of _ _ _ G F Hsorted HG HF') as Hle.
    cbn in Hle. lia.
  - apply elem_of_cons in HG as [->|HG]; [done|].
    apply (has_nested_pair_intro _ l1 F l2 G Hs HG Hne). by apply Hlt.
Qed.

(** X2. When the non-augmented engine classifies a subset of distinct
    flats as "not a chain" and appends the plain product of its variables,
    the subset really is not a chain: two of its flats have the same
    cardinality, so neither contains the other. *)
Theorem nonaug_product_branch_sound (d : dict (gset L) P)
    (fl : list (gset L)) (ranks : dict (gset L) Z) subset :
  NoDup subset →
  adjacent_same_len (sorted_by_len subset) = true →
  ¬ is_chain subset
  ∧ nonaug_subset_terms d fl ranks subset
    = (term ← product_of d subset; Ret [term]).
Proof.
  intros Hnd Hadj. split; [by apply adjacent_same_len_not_chain|].
  unfold nonaug_subset_terms. by rewrite Hadj.
Qed.

(** X3. A chain of two or more distinct flats contributes nothing to the
    output of the non-augmented engine: it passes the cardinality test,
    and the second loop then clears [flag] because one member is a proper
    subset of another. *)
Theorem nonaug_chain_contributes_nothing (d : dict (gset L) P)
    (fl : list (gset L)) (ranks : dict (gset L) Z) subset :
  NoDup subset → is_chain subset → (2 ≤ length subset)%nat →
  nonaug_subset_terms d fl ranks subset = Ret [].
Proof.
  intros Hnd Hchain Hlen. unfold nonaug_subset_terms.
  destruct (adjacent_same_len (sorted_by_len subset)) eqn:Hadj.
  { by destruct (adjacent_same_len_not_chain subset Hnd Hadj). }
  destruct subset as [|F [|G subset]]; [cbn in Hlen; lia..|].
  rewrite bool_decide_eq_false_2 by done.
  assert (F ≠ G) as Hne.
  { apply NoDup_cons in Hnd as [HF _]. intros ->. apply HF. left. }
  assert (F ⊂ G ∨ G ⊂ F) as Hnest.
  { destruct (Hchain F G) as [Hs|Hs]; [left|right; left|..].
    - left. split; [done|]. intros Hs'. apply Hne. set_solver.
    - right. split; [done|]. intros Hs'. apply Hne. set_solver. }
  assert (has_nested_pair (sorted_by_len (F :: G :: subset)) = true) as ->.
  { destruct Hnest as [Hlt|Hlt].
    - apply (nested_pair_found _ F G); [left|right; left|done].
    - apply (nested_pair_found _ G F); [right; left|left|done]. }
  done.
Qed.
End ChainTest.

(** ** Flats that leave the groundset *)

Section KeyErrors.
Context {L : Type} `{Countable L} {P : Type} `{PolyRing P}.
Implicit Types (M : Matroid L) (E : list L) (fl : list (gset L)).

(** The inner loop [for x in F] returns when every member of [F] is a key
    of the table, and raises [KeyError] otherwise. *)
Lemma for_each_fc_append_keys {A} (a : A) E (l : list L)
    (fc : gmap L (list A)) :
  (∀ x, is_Some (fc !! x) ↔ x ∈ E) →
  (Forall (λ x, x ∈ E) l
   ∧ ∃ fc', for_each l (λ x fc0, fc_append x a fc0) fc = Ret fc'
            ∧ ∀ x, is_Some (fc' !! x) ↔ x ∈ E)
  ∨ (¬ Forall (λ x, x ∈ E) l
     ∧ for_each l (λ x fc0, fc_append x a fc0) fc = Raise KeyError).
Proof.
  revert fc. induction l as [|x l IH]; intros fc Hdom.
  { left. split; [done|]. by exists fc. }
  cbn [for_each]. destruct (decide (x ∈ E)) as [Hx|Hx].
  - destruct (proj2 (Hdom x) Hx) as [v Hv].
    rewrite (fc_append_Some x a fc v Hv), py_bind_Ret.
    destruct (IH (<[x := v ++ [a]]> fc)) as [(Hall & Hrun)|(Hnot & Hrun)].
    + intros y. rewrite lookup_insert. case_decide; [|apply Hdom].
      subst. split; [done|]. by eexists.
    + left. split; [by apply Forall_cons|done].
    + right. split; [|done]. by intros [_ ?]%Forall_cons.
  - right. split; [by intros [? _]%Forall_cons|].
    unfold fc_append. destruct (fc !! x) as [v|] eqn:Hv; [|done].
    destruct Hx. apply Hdom. by eexists.
Qed.

Lemma for_each_flats_raises {A} E (entries : list (A * gset L))
    (fc : gmap L (list A)) :
  (∀ x, is_Some (fc !! x) ↔ x ∈ E) →
  ¬ Forall (λ e, e.2 ⊆ list_to_set E) entries →
  for_each entries
    (λ '(a, F) fc0, for_each (elements F) (λ x fc1, fc_append x a fc1) fc0)
    fc
  = Raise KeyError.
Proof.
  revert fc. induction entries as [|[a F] entries IH]; intros fc Hdom Hbad.
  { destruct Hbad. apply Forall_nil_2. }
  cbn [for_each].
  destruct (for_each_fc_append_keys a E (elements F) fc Hdom)
    as [(Hall & fc' & -> & Hdom')|(_ & ->)]; [|done].
  rewrite py_bind_Ret. apply IH; [done|].
  intros Hrest. apply Hbad. apply Forall_cons. split; [|done].
  cbn. intros x Hx%elem_of_elements. apply elem_of_list_to_set.
  rewrite Forall_forall in Hall. by apply Hall.
Qed.

Lemma build_flats_containing_raises {A} E (entries : list (A * gset L)) :
  ¬ Forall (λ e, e.2 ⊆ list_to_set E) entries →
  build_flats_containing E entries = Raise KeyError.
Proof.
  intros Hbad. apply (for_each_flats_raises E); [|done].
  intros x. rewrite lookup_flats_containing_init.
  case_decide; split; done.
Qed.

Lemma dict_keys_fold_set {K V} `{EqDecision K} (pairs : list (K * V))
    (d : dict K V) (k : K) :
  k ∈ dict_keys (fold_left (λ d' kv, dict_set kv.1 kv.2 d') pairs d)
  ↔ k ∈ pairs.*1 ∨ k ∈ dict_keys d.
Proof.
  revert d. induction pairs as [|[k' v'] pairs IH]; intros d.
  - cbn. rewrite elem_of_nil. naive_solver.
  - cbn [fold_left]. rewrite IH. cbn [fst snd].
    rewrite dict_keys_set, fmap_cons, elem_of_cons. naive_solver.
Qed.

Lemma dict_keys_dict_of {K V} `{EqDecision K} (pairs : list (K * V)) (k : K) :
  k ∈ dict_keys (dict_of pairs) ↔ k ∈ pairs.*1.
Proof.
  unfold dict_of. rewrite dict_keys_fold_set. cbn. rewrite elem_of_nil.
  naive_solver.
Qed.

Lemma enumerate_not_subset E fl fl' :
  (∀ F, F ∈ fl → F ∈ fl') →
  ¬ Forall (λ F, F ⊆ list_to_set E) fl →
  ¬ Forall (λ e : nat * gset L, e.2 ⊆ list_to_set E) (enumerate fl').
Proof.
  intros Hin Hbad Hall. apply Hbad. apply Forall_forall. intros F HF.
  apply Hin in HF. apply list_elem_of_lookup in HF as [i Hi].
  rewrite Forall_forall in Hall.
  apply (Hall (i, F)). by apply elem_of_enumerate.
Qed.

Lemma fy_fill_dict_returns E fl (n : nat) :
  (length E + length fl ≤ n)%nat →
  ∃ d, fy_fill_dict E fl (ring_gens (P:=P) n) = Ret d.
Proof.
  intros Hn. unfold fy_fill_dict.
  destruct (for_each_returns (enumerate E)
    (λ '(i, x) (d : dict (L + gset L) P),
       g ← py_index (ring_gens n) i; Ret (dict_set (inl x) g d)) [])
    as [d1 ->].
  { intros [i x] d Hix%elem_of_enumerate.
    rewrite py_index_ring_gens; [by eexists|].
    apply lookup_lt_Some in Hix. lia. }
  rewrite py_bind_Ret. apply for_each_returns.
  intros [i F] d HiF%elem_of_enumerate.
  rewrite py_index_ring_gens; [by eexists|].
  apply lookup_lt_Some in HiF. lia.
Qed.

(** X4. When some proper flat has a member outside the groundset, each of
    the three constructors raises [KeyError]: the statement
    [flats_containing[x].append(...)] meets a key the table does not
    have. *)
Theorem inconsistent_flats_raise_KeyError M :
  ¬ Forall (λ F, F ⊆ list_to_set (groundset M)) (proper_flats M) →
  nonaug_init (P:=P) M = Raise KeyError
  ∧ fy_init (P:=P) M = Raise KeyError
  ∧ af_init (P:=P) M = Raise KeyError.
Proof.
  intros Hbad. split_and!.
  - unfold nonaug_init, nonaug_gens_constructor. cbv zeta.
    rewrite build_flats_containing_raises; [done|].
    apply (enumerate_not_subset _ (proper_flats M)); [|done].
    intros F HF. apply dict_keys_dict_of.
    rewrite fst_zip; [done|]. by rewrite length_ring_gens.
  - unfold fy_init. cbv zeta.
    destruct (fy_fill_dict_returns (groundset M) (proper_flats M)
                (length (groundset M) + length (proper_flats M)))
      as [d ->]; [done|].
    rewrite py_bind_Ret. unfold fy_gens_constructor.
    rewrite build_flats_containing_raises; [done|].
    intros Hall. apply Hbad. by apply Forall_fmap in Hall.
  - unfold af_init.
    rewrite build_flats_containing_raises; [done|].
    by apply (enumerate_not_subset _ (proper_flats M)).
Qed.
End KeyErrors.

(** ** The dictionary of the flats *)

Section FlatsDict.
Context {L : Type} `{Countable L} {P : Type} `{PolyRing P}.
Implicit Types (M : Matroid L) (E : list L) (fl : list (gset L)).
Implicit Types (F G : gset L).

Lemma zip_fmap_seq {A B} (f : nat → B) (l : list A) (k : nat) :
  zip l (f <$> seq k (length l)) = imap (λ i x, (x, f (k + i)%nat)) l.
Proof.
  revert k. induction l as [|x l IH]; intros k; [done|].
  cbn [length seq fmap list_fmap zip zip_with]. rewrite imap_cons.
  f_equal; [by rewrite Nat.add_0_r|].
  fold (zip l (f <$> seq (S k) (length l))). rewrite IH.
  apply imap_ext. intros i y _. cbn. do 2 f_equal. lia.
Qed.

(** [dict(zip(flats, gens))] on distinct flats gives the flat at position
    [i] the variable [i], and has no other key. *)
Lemma flats_dict_lookup fl F :
  NoDup fl →
  dict_lookup (dict_of (zip fl (ring_gens (P:=P) (length fl)))) F
  = if decide (F ∈ fl) then Some (flat_var fl F) else None.
Proof.
  intros Hnd.
  assert ((zip fl (ring_gens (P:=P) (length fl))).*1 = fl) as Hfst.
  { apply fst_zip. by rewrite length_ring_gens. }
  rewrite dict_of_nodup by (by rewrite Hfst).
  case_decide as HF.
  - unfold ring_gens.
    change (map pgen (seq 0 (length fl)))
      with (pgen (P:=P) <$> seq 0 (length fl)).
    rewrite zip_fmap_seq.
    apply (dict_lookup_imap id (λ k, pgen k) fl 0 F HF).
  - apply dict_lookup_not_key.
    change (F ∉ (zip fl (ring_gens (P:=P) (length fl))).*1).
    by rewrite Hfst.
Qed.

Lemma flats_dict_get fl F :
  NoDup fl → F ∈ fl →
  dict_get (dict_of (zip fl (ring_gens (P:=P) (length fl)))) F
  = Ret (flat_var fl F).
Proof.
  intros Hnd HF. apply dict_get_lookup.
  rewrite flats_dict_lookup by done. by rewrite decide_True.
Qed.

(** [term = zero; for G in gs: term += flats_gen[G]] over flats that are
    keys. *)
Lemma sum_over_flats fl (keep : gset L → bool) (gs : list (gset L)) :
  NoDup fl → (∀ G, G ∈ gs → G ∈ fl) →
  sum_over (dict_of (zip fl (ring_gens (P:=P) (length fl)))) id keep gs
  = Ret (psum (flat_var fl <$> filter (λ G, keep G) gs)).
Proof.
  intros Hnd Hin. unfold sum_over.
  rewrite (for_each_Ret_fold _
    (λ term G, if negb (keep G) then term else padd term (flat_var fl G))).
  2:{ intros G term HG. destruct (keep G); [|done]. unfold id.
      by rewrite (flats_dict_get fl G Hnd (Hin G HG)). }
  f_equal. unfold psum.
  rewrite (fold_left_skip (λ G, negb (keep G))
             (λ term G, padd term (flat_var fl G))).
  rewrite fold_left_fmap. f_equal.
  apply filter_ext_elem. intros G _. destruct (keep G); naive_solver.
Qed.

Lemma table_of_flats fl (x : L) :
  (filter (λ e : gset L * gset L, x ∈ e.2) ((λ F, (F, F)) <$> fl)).*1
  = filter (λ F, x ∈ F) fl.
Proof.
  induction fl as [|F fl IH]; [done|].
  rewrite fmap_cons, !filter_cons. cbn [snd].
  case_decide; [rewrite fmap_cons; cbn|]; by rewrite IH.
Qed.
End FlatsDict.

(** ** The atom-free presentation *)

Section AtomFreeBuilder.
Context {L : Type} `{Countable L} {P : Type} `{PolyRing P}.
Implicit Types (M : Matroid L) (E : list L) (fl : list (gset L)).
Implicit Types (F G : gset L).

Lemma filter_always {A} (l : list A) :
  filter (λ _ : A, Is_true true) l = l.
Proof.
  induction l as [|a l IH]; [done|].
  rewrite filter_cons_True by exact I. by rewrite IH.
Qed.

Lemma af_sum_containing_spec E fl (fc : gmap L (list (gset L))) (x : L) :
  NoDup fl →
  (∀ y, fc !! y = if decide (y ∈ E)
                  then Some (fst <$> filter (λ e, y ∈ e.2)
                                            ((λ F, (F, F)) <$> fl))
                  else None) →
  x ∈ E →
  af_sum_containing (dict_of (zip fl (ring_gens (length fl)))) fc x
  = Ret (sum_containing fl x).
Proof.
  intros Hnd Hfc Hx. unfold af_sum_containing, fc_get.
  rewrite Hfc, decide_True by done. rewrite py_bind_Ret, table_of_flats.
  rewrite (sum_over_flats fl (λ _, true)); [|done|].
  - unfold sum_containing. by rewrite filter_always.
  - intros G [_ HG]%list_elem_of_filter. done.
Qed.

(** The atom-free constructor with every lookup resolved. *)
Lemma af_generators_described_aux M :
  matroid_wf M →
  ∃ I, af_init M = Ret I
       ∧ af_matroid I = M
       ∧ af_flats I = proper_flats M
       ∧ af_gens I = af_gens_described (groundset M) (proper_flats M).
Proof.
  intros [HE Hnd Hsub]. unfold af_init.
  set (E := groundset M). set (fl := proper_flats M).
  destruct (build_flats_containing_spec E (enumerate fl))
    as (fc0 & -> & _); [by apply enumerate_subset|].
  rewrite py_bind_Ret. unfold af_gens_constructor. fold E.
  destruct (build_flats_containing_spec E ((λ F, (F, F)) <$> fl))
    as (fc & -> & Hfc).
  { apply Forall_fmap. by apply (Forall_impl _ _ _ Hsub). }
  rewrite py_bind_Ret.
  rewrite (collect_Ret_flat_map _
    (λ F, flat_map
            (λ G, (if bool_decide (F = G ∨ incomparable F G)
                   then [pmul (flat_var fl F) (flat_var fl G)] else [])
                  ++ flat_map (af_element_relations fl F) E)
            fl)).
  { rewrite py_bind_Ret. eexists. split; [reflexivity|]. done. }
  intros F HF. apply collect_Ret_flat_map. intros G HG.
  rewrite (collect_Ret_flat_map _ (af_element_relations fl F)).
  2:{ intros x Hx.
      rewrite (af_sum_containing_spec E fl fc x Hnd Hfc Hx), py_bind_Ret.
      unfold fc_get. rewrite Hfc, decide_True by done.
      rewrite py_bind_Ret, table_of_flats. unfold af_element_relations.
      assert (F ∈ filter (λ F0, x ∈ F0) fl ↔ x ∈ F) as Hiff.
      { rewrite list_elem_of_filter. naive_solver. }
      destruct (bool_decide_reflect (x ∈ F)) as [HxF|HxF].
      - by rewrite bool_decide_eq_true_2 by (by apply Hiff).
      - rewrite bool_decide_eq_false_2 by (by rewrite Hiff).
        by rewrite (flats_dict_get fl F Hnd HF). }
  rewrite (flats_dict_get fl F Hnd HF), (flats_dict_get fl G Hnd HG).
  fold (not_nested F G).
  destruct (bool_decide_reflect (F = G ∨ incomparable F G)) as [Hd|Hd].
  - apply not_nested_iff in Hd. apply Is_true_eq_true in Hd.
    by rewrite Hd.
  - rewrite <- not_nested_iff in Hd. apply Is_true_false in Hd.
    by rewrite Hd.
Qed.

(** X5. On a matroid with distinct groundset elements and distinct proper
    flats inside the groundset, the atom-free constructor returns, and its
    generator sequence is, for every ordered pair of flats [(F, G)]: the
    product [x_F * x_G] when the two are equal or incomparable, then, for
    every groundset element [x], the square of the sum of the variables of
    the flats containing [x] and, when [x] is not in [F], the product of
    [x_F] and that sum. The relations of the elements do not depend on [G]
    and are repeated once for every flat [G]. *)
Theorem af_generators_described M :
  matroid_wf M →
  ∃ I, af_init M = Ret I
       ∧ af_flats I = proper_flats M
       ∧ af_gens I = af_gens_described (groundset M) (proper_flats M).
Proof.
  intros Hwf.
  destruct (af_generators_described_aux M Hwf) as (I & HI & _ & Hfl & Hg).
  by exists I.
Qed.
End AtomFreeBuilder.

(** ** The accessors *)

Section Registry.
Context {L : Type} `{Countable L} {P : Type} `{PolyRing P}.
Implicit Types (M : Matroid L) (E : list L) (fl : list (gset L)).
Implicit Types (F G : gset L).

Lemma dict_get_flats_copy fl F :
  NoDup fl →
  let d := dict_of (zip fl (ring_gens (P:=P) (length fl))) in
  dict_of d = d
  ∧ dict_keys d = fl
  ∧ dict_get d F
    = if decide (F ∈ fl) then Ret (flat_var fl F) else Raise KeyError.
Proof.
  intros Hnd d.
  assert (dict_keys d = fl) as Hkeys by (by apply zip_flats_gens_keys).
  split_and!; [|done|].
  - apply dict_of_nodup. change (NoDup (dict_keys d)). by rewrite Hkeys.
  - unfold dict_get, d. rewrite (flats_dict_lookup fl F Hnd).
    by case_decide.
Qed.

(** X6. On a matroid with distinct groundset elements and distinct proper
    flats inside the groundset, [flats_generator()] of the non-augmented
    and of the atom-free ideal give the same dictionary: its keys are the
    proper flats in order, the flat at position [i] has the variable [i],
    and looking up anything else raises [KeyError]. *)
Theorem flats_generator_registry M :
  matroid_wf M →
  let fl := proper_flats M in
  ∃ I J,
    nonaug_init M = Ret I ∧ af_init M = Ret J
    ∧ af_flats_generator_method J = nonaug_flats_generator I
    ∧ dict_keys (nonaug_flats_generator I) = fl
    ∧ ∀ F, dict_get (nonaug_flats_generator I) F
           = if decide (F ∈ fl) then Ret (flat_var fl F)
             else Raise KeyError.
Proof.
  intros Hwf fl.
  pose proof (nonaug_gens_constructor_wf M Hwf) as Hgens. cbv zeta in Hgens.
  destruct Hwf as [HE Hnd Hsub].
  destruct (build_flats_containing_spec (groundset M) (enumerate fl))
    as (fc0 & Hfc0 & _); [by apply enumerate_subset|].
  assert (∃ g, af_gens_constructor M fl
                 (dict_of (zip fl (ring_gens (P:=P) (length fl))))
                 (length fl) = Ret g) as [g Hg].
  { destruct (af_generators_described_aux M) as (J & HJ & _);
      [by split|].
    unfold af_init in HJ. fold fl in HJ. rewrite Hfc0, py_bind_Ret in HJ.
    destruct (af_gens_constructor _ _ _ _) as [g|e]; [by exists g|done]. }
  eexists _, _. split_and!.
  - unfold nonaug_init. cbv zeta. rewrite Hgens. reflexivity.
  - unfold af_init. fold fl. rewrite Hfc0, py_bind_Ret, Hg. reflexivity.
  - reflexivity.
  - unfold nonaug_flats_generator. cbn [na_flats_generator]. fold fl.
    destruct (dict_get_flats_copy fl ∅ Hnd) as (-> & Hk & _). exact Hk.
  - intros F. unfold nonaug_flats_generator. cbn [na_flats_generator].
    fold fl.
    destruct (dict_get_flats_copy fl F Hnd) as (-> & _ & Hget). exact Hget.
Qed.
End Registry.

Section RegistryFY.
Context {L : Type} `{Countable L} {P : Type} `{PolyRing P}.
Implicit Types (M : Matroid L) (E : list L) (fl : list (gset L)).
Implicit Types (F G : gset L).

(** The dictionary the two loops of [__init__] fill. *)
Lemma fy_fill_dict_explicit E fl :
  NoDup E → NoDup fl →
  fy_fill_dict E fl (ring_gens (P:=P) (length E + length fl))
  = Ret (imap (λ i x, (inl x, pgen (0 + i)%nat)) E
         ++ imap (λ i F, (inr F, pgen (length E + (0 + i))%nat)) fl).
Proof.
  intros HE Hfl. unfold fy_fill_dict.
  set (h1 := λ e : nat * L, (inl (B:=gset L) e.2, pgen (P:=P) e.1)).
  set (h2 := λ e : nat * gset L,
               (inr (A:=L) e.2, pgen (P:=P) (length E + e.1)%nat)).
  rewrite (for_each_Ret_fold _ (λ d e, dict_set (h1 e).1 (h1 e).2 d)).
  2:{ intros [i x] d Hix%elem_of_enumerate. cbn.
      rewrite py_index_ring_gens; [done|].
      apply lookup_lt_Some in Hix. lia. }
  rewrite py_bind_Ret.
  rewrite (for_each_Ret_fold _ (λ d e, dict_set (h2 e).1 (h2 e).2 d)).
  2:{ intros [i F] d HiF%elem_of_enumerate. cbn.
      rewrite py_index_ring_gens; [done|].
      apply lookup_lt_Some in HiF. lia. }
  assert (fst ∘ h1 <$> enumerate E = inl <$> E) as Hk1.
  { rewrite <- (fmap_snd_enumerate E) at 2. by rewrite <- list_fmap_compose. }
  assert (fst ∘ h2 <$> enumerate fl = inr <$> fl) as Hk2.
  { rewrite <- (fmap_snd_enumerate fl) at 2. by rewrite <- list_fmap_compose. }
  rewrite (fold_dict_set_fresh h1 (enumerate E) []).
  2:{ cbn. rewrite Hk1. by apply (NoDup_fmap_2 inl). }
  cbn [app].
  rewrite (fold_dict_set_fresh h2 (enumerate fl)).
  2:{ unfold dict_keys. rewrite <- list_fmap_compose, Hk1, Hk2.
      apply NoDup_app. split_and!.
      - by apply (NoDup_fmap_2 inl).
      - intros k (x & -> & _)%list_elem_of_fmap (F & ? & _)%list_elem_of_fmap.
        done.
      - by apply (NoDup_fmap_2 inr). }
  f_equal. f_equal.
  - unfold h1, enumerate. rewrite fmap_imap. by apply imap_ext.
  - unfold h2, enumerate. rewrite fmap_imap. by apply imap_ext.
Qed.

Lemma fst_imap_pair {A K V} (key : A → K) (val : nat → V) (l : list A) :
  (imap (λ i y, (key y, val i)) l).*1 = key <$> l.
Proof.
  revert val. induction l as [|x l IH]; intros val; [done|].
  rewrite imap_cons. cbn. f_equal. apply (IH (val ∘ S)).
Qed.

(** X7. On a matroid with distinct groundset elements and distinct proper
    flats inside the groundset, [flats_generator()] of the ideal of
    Feitchner and Yuzvinsky has the groundset elements as keys, then the
    proper flats. The element at position [k] has the variable [k], the
    flat at position [i] has the variable [|E| + i], so no variable is
    shared, and looking up another element or flat raises [KeyError]. *)
Theorem fy_flats_generator_registry M :
  matroid_wf M →
  let E := groundset M in
  let fl := proper_flats M in
  ∃ I, fy_init M = Ret I
       ∧ dict_keys (fy_flats_generator_method I) = (inl <$> E) ++ (inr <$> fl)
       ∧ (∀ x, dict_get (fy_flats_generator_method I) (inl x)
               = if decide (x ∈ E) then Ret (fy_element_var E x)
                 else Raise KeyError)
       ∧ (∀ F, dict_get (fy_flats_generator_method I) (inr F)
               = if decide (F ∈ fl) then Ret (fy_flat_var E fl F)
                 else Raise KeyError)
       ∧ (∀ x F, x ∈ E → F ∈ fl →
                 (index_of x E < length E + index_of F fl)%nat).
Proof.
  intros Hwf E fl.
  destruct (fy_init_wf M Hwf) as (I & Hinit & _).
  destruct Hwf as [HE Hnd Hsub].
  pose proof (fy_fill_dict_explicit E fl HE Hnd) as Hfill.
  set (d := imap (λ i x, (inl (B:=gset L) x, pgen (P:=P) (0 + i)%nat)) E
            ++ imap (λ i F, (inr (A:=L) F,
                              pgen (P:=P) (length E + (0 + i))%nat)) fl)
    in Hfill.
  assert (d.*1 = (inl <$> E) ++ (inr <$> fl)) as Hkeys.
  { unfold d. rewrite fmap_app.
    by rewrite (fst_imap_pair inl), (fst_imap_pair inr). }
  assert (fy_flats_generator I = d) as Hd.
  { unfold fy_init in Hinit. cbv zeta in Hinit. fold E fl in Hinit.
    rewrite Hfill, py_bind_Ret in Hinit.
    destruct (fy_gens_constructor _ _ _ _) as [g|e]; [|done].
    rewrite py_bind_Ret in Hinit. by injection Hinit as <-. }
  assert (dict_of d = d) as Hcopy.
  { apply dict_of_nodup. rewrite Hkeys. apply NoDup_app. split_and!.
    - by apply (NoDup_fmap_2 inl).
    - intros k (x & -> & _)%list_elem_of_fmap (F & ? & _)%list_elem_of_fmap.
      done.
    - by apply (NoDup_fmap_2 inr). }
  exists I. unfold fy_flats_generator_method. rewrite Hd, Hcopy.
  split_and!; [done|exact Hkeys| | |].
  - intros x. unfold dict_get, d. rewrite dict_lookup_app.
    destruct (decide (x ∈ E)) as [Hx|Hx].
    + by rewrite (dict_lookup_imap inl (λ k, pgen k) E 0 x Hx).
    + rewrite dict_lookup_not_key.
      2:{ change (inl x ∉ (imap (λ i y, (inl (B:=gset L) y,
                                          pgen (P:=P) (0 + i)%nat)) E).*1).
          rewrite (fst_imap_pair inl).
          intros (y & [= ->] & Hy)%list_elem_of_fmap. done. }
      rewrite dict_lookup_not_key; [done|].
      change (inl x ∉ (imap (λ i F, (inr (A:=L) F,
                         pgen (P:=P) (length E + (0 + i))%nat)) fl).*1).
      rewrite (fst_imap_pair inr).
      intros (y & ? & _)%list_elem_of_fmap. done.
  - intros F. unfold dict_get, d. rewrite dict_lookup_app.
    rewrite dict_lookup_not_key.
    2:{ change (inr F ∉ (imap (λ i y, (inl (B:=gset L) y,
                                        pgen (P:=P) (0 + i)%nat)) E).*1).
        rewrite (fst_imap_pair inl).
        intros (y & ? & _)%list_elem_of_fmap. done. }
    destruct (decide (F ∈ fl)) as [HF|HF].
    + by rewrite (dict_lookup_imap inr
                    (λ k, pgen (length E + k)%nat) fl 0 F HF).
    + rewrite dict_lookup_not_key; [done|].
      change (inr F ∉ (imap (λ i G, (inr (A:=L) G,
                         pgen (P:=P) (length E + (0 + i))%nat)) fl).*1).
      rewrite (fst_imap_pair inr).
      intros (y & [= ->] & Hy)%list_elem_of_fmap. done.
  - intros x F Hx HF.
    assert (∀ l : list L, x ∈ l → (index_of x l < length l)%nat) as Hlt.
    { induction l as [|y l IH]; [by intros ?%elem_of_nil|].
      intros Hin. cbn. case_decide; [lia|].
      apply elem_of_cons in Hin as [?|Hin]; [done|].
      specialize (IH Hin). lia. }
    specialize (Hlt E Hx). lia.
Qed.
End RegistryFY.

(** ** The non-augmented engine on a constructed ideal *)

Section NonAugEngine.
Context {L : Type} `{Countable L} {P : Type} `{PolyRing P}.
Implicit Types (M : Matroid L) (E : list L) (fl pf : list (gset L)).
Implicit Types (F G : gset L).

Lemma remove_first_sublist {A} `{EqDecision A} (x : A) (l : list A) :
  remove_first x l `sublist_of` l.
Proof.
  induction l as [|y l IH]; cbn [remove_first]; [done|].
  case_decide; [by apply sublist_cons|by apply sublist_skip].
Qed.

Lemma engine_flats_sublist pf : engine_flats pf `sublist_of` pf.
Proof.
  unfold engine_flats. case_bool_decide; [apply remove_first_sublist|done].
Qed.

Lemma dict_lookup_graph {K V} `{EqDecision K} (f : K → V) (l : list K)
    (k : K) :
  dict_lookup ((λ k', (k', f k')) <$> l) k
  = if decide (k ∈ l) then Some (f k) else None.
Proof.
  induction l as [|k' l IH]; [done|].
  rewrite fmap_cons. cbn [dict_lookup].
  destruct (decide (k = k')) as [->|Hne].
  - by rewrite decide_True by left.
  - rewrite IH. destruct (decide (k ∈ l)) as [Hin|Hnin].
    + by rewrite decide_True by (by right).
    + rewrite decide_False; [done|].
      by intros [?|?]%elem_of_cons.
Qed.

Lemma ranks_get M fl F :
  NoDup fl → F ∈ fl →
  dict_get (dict_of (map (λ F', (F', rank M F')) fl)) F = Ret (rank M F).
Proof.
  intros Hnd HF. apply dict_get_lookup.
  change (map (λ F', (F', rank M F')) fl)
    with ((λ F', (F', rank M F')) <$> fl).
  rewrite dict_of_nodup.
  - rewrite dict_lookup_graph. by rewrite decide_True.
  - rewrite <- list_fmap_compose. by rewrite list_fmap_id.
Qed.

Lemma product_of_flats pf (subset : list (gset L)) :
  NoDup pf → (∀ F, F ∈ subset → F ∈ pf) →
  product_of (dict_of (zip pf (ring_gens (P:=P) (length pf)))) subset
  = Ret (pprod (flat_var pf <$> subset)).
Proof.
  intros Hnd Hin. unfold product_of.
  rewrite (for_each_Ret_fold _ (λ term F, pmul term (flat_var pf F))).
  - unfold pprod. by rewrite fold_left_fmap.
  - intros F term HF. by rewrite (flats_dict_get pf F Hnd (Hin F HF)).
Qed.

Lemma sum_flats_ge_spec pf fl F :
  NoDup pf → (∀ G, G ∈ fl → G ∈ pf) →
  sum_flats_ge (dict_of (zip pf (ring_gens (P:=P) (length pf)))) fl F
  = Ret (sum_above pf fl F).
Proof.
  intros Hnd Hin. unfold sum_flats_ge.
  rewrite (sum_over_flats pf _ fl Hnd Hin). unfold sum_above. do 3 f_equal.
  apply filter_ext_elem. intros G _. unfold flat_ge.
  by rewrite bool_decide_spec.
Qed.

Lemma sorted_by_len_length (subset : list (gset L)) :
  length (sorted_by_len subset) = length subset.
Proof. by rewrite sorted_by_len_perm. Qed.

Lemma collect_returns {A B} (xs : list A) (body : A → py (list B)) :
  (∀ x, x ∈ xs → ∃ ys, body x = Ret ys) → ∃ zs, collect xs body = Ret zs.
Proof.
  intros Hb.
  destruct (collect_returns_Forall (λ _, True) xs body) as (zs & Hzs & _).
  - intros x Hx. destruct (Hb x Hx) as [ys Hys]. exists ys. split; [done|].
    apply Forall_forall. done.
  - by exists zs.
Qed.

(** One pass of the loop over the subsets returns when the subset is made
    of flats of the engine's list. *)
Lemma nonaug_subset_terms_returns M pf (subset : list (gset L)) :
  NoDup pf →
  (∀ F, F ∈ subset → F ∈ engine_flats pf) →
  ∃ terms,
    nonaug_subset_terms (dict_of (zip pf (ring_gens (P:=P) (length pf))))
      (engine_flats pf)
      (dict_of (map (λ F, (F, rank M F)) (engine_flats pf))) subset
    = Ret terms.
Proof.
  intros Hnd Hsub.
  pose proof (engine_flats_sublist pf) as Hfl.
  assert (NoDup (engine_flats pf)) as Hnd' by (by eapply sublist_NoDup).
  assert (∀ F, F ∈ engine_flats pf → F ∈ pf) as Hin.
  { intros F HF. by eapply elem_of_sublist. }
  unfold nonaug_subset_terms.
  rewrite (product_of_flats pf subset Hnd) by auto.
  destruct (adjacent_same_len _); [by eexists|].
  case_bool_decide as Hempty.
  { apply collect_returns. intros F HF. rewrite (sum_flats_ge_spec pf _ F Hnd Hin), py_bind_Ret.
    rewrite (ranks_get M _ F Hnd' HF). by eexists. }
  destruct (has_nested_pair _); [by eexists|].
  assert (∃ top, sorted_by_len subset !! (length subset - 1)%nat = Some top)
    as [top Htop].
  { apply lookup_lt_is_Some_2. rewrite sorted_by_len_length.
    destruct subset; [done|]. cbn. lia. }
  assert (top ∈ engine_flats pf) as Htop_in.
  { apply Hsub. rewrite <- (sorted_by_len_perm subset).
    by eapply list_elem_of_lookup_2. }
  apply collect_returns.
  intros F HF. destruct (flat_lt _ F); [|by eexists].
  rewrite py_bind_Ret, (sum_flats_ge_spec pf _ F Hnd Hin), py_bind_Ret.
  destruct (p_is_zero _); [by eexists|].
  rewrite (ranks_get M _ F Hnd' HF), py_bind_Ret.
  rewrite (py_index_lookup _ _ _ Htop), py_bind_Ret.
  rewrite (ranks_get M _ top Hnd' Htop_in). by eexists.
Qed.

Lemma flat_map_singleton {A B} (f : A → B) (l : list A) :
  flat_map (λ x, [f x]) l = f <$> l.
Proof. induction l as [|x l IH]; [done|]. cbn. by rewrite IH. Qed.

Lemma all_subsets_head fl :
  ∃ others, all_subsets fl = [] :: others
            ∧ ∀ s, s ∈ others → s `sublist_of` fl.
Proof.
  unfold all_subsets. rewrite Nat.add_1_r. cbn [seq flat_map].
  rewrite combinations_nil_size. eexists. split; [reflexivity|].
  intros s Hs. apply (elem_of_all_subsets_gen fl s).
  fold (all_subsets fl). unfold all_subsets. rewrite Nat.add_1_r. cbn [seq flat_map].
  rewrite combinations_nil_size. by right.
Qed.

(** X8. On a matroid with distinct groundset elements and distinct proper
    flats inside the groundset, the non-augmented engine returns (no
    lookup fails), and its output begins with the terms of the empty
    subset: for every flat [F] of the engine's list, in order, the sum of
    the variables of the flats containing [F], raised to [rank(F)]. *)
Theorem nonaug_engine_returns M :
  matroid_wf M →
  ∃ I gb rest,
    nonaug_init M = Ret I
    ∧ (∀ generic, nonaug_groebner_basis generic I "" = Ret (PySequence gb))
    ∧ gb = nonaug_empty_subset_terms M (proper_flats M) ++ rest.
Proof.
  intros Hwf.
  pose proof (nonaug_gens_constructor_wf M Hwf) as Hgens. cbv zeta in Hgens.
  destruct Hwf as [HE Hnd Hsub]. set (pf := proper_flats M) in *.
  pose proof (engine_flats_sublist pf) as Hfl.
  assert (NoDup (engine_flats pf)) as Hnd' by (by eapply sublist_NoDup).
  assert (∀ F, F ∈ engine_flats pf → F ∈ pf) as Hin.
  { intros F HF. by eapply elem_of_sublist. }
  destruct (all_subsets_head (engine_flats pf)) as (others & Hall & Hothers).
  destruct (collect_returns others
    (nonaug_subset_terms (dict_of (zip pf (ring_gens (P:=P) (length pf))))
       (engine_flats pf)
       (dict_of (map (λ F, (F, rank M F)) (engine_flats pf)))))
    as [rest Hrest].
  { intros s Hs. apply nonaug_subset_terms_returns; [done|].
    intros F HF. eapply elem_of_sublist; [done|]. by apply Hothers. }
  assert (nonaug_subset_terms
            (dict_of (zip pf (ring_gens (P:=P) (length pf))))
            (engine_flats pf)
            (dict_of (map (λ F, (F, rank M F)) (engine_flats pf))) []
          = Ret (nonaug_empty_subset_terms M pf)) as Hempty.
  { unfold nonaug_subset_terms. cbn [sorted_by_len fold_right
      adjacent_same_len]. rewrite bool_decide_eq_true_2 by done.
    unfold nonaug_empty_subset_terms.
    rewrite (collect_Ret_flat_map _
      (λ F, [ppow (sum_above pf (engine_flats pf) F) (rank M F)])).
    - by rewrite flat_map_singleton.
    - intros F HF. rewrite (sum_flats_ge_spec pf _ F Hnd Hin), py_bind_Ret.
      by rewrite (ranks_get M _ F Hnd' HF). }
  eexists _, (nonaug_empty_subset_terms M pf ++ rest), rest. split_and!.
  - unfold nonaug_init. cbv zeta. fold pf. rewrite Hgens. reflexivity.
  - intros generic. unfold nonaug_groebner_basis, nonaug_combinatorial.
    cbn [String.eqb na_flats_generator na_matroid].
    rewrite (zip_flats_gens_keys pf Hnd). fold (engine_flats pf).
    rewrite Hall. cbn [collect]. rewrite Hempty, py_bind_Ret.
    rewrite Hrest. reflexivity.
  - reflexivity.
Qed.
End NonAugEngine.

(** ** What the engine of Feitchner and Yuzvinsky emits *)

Section FYEmits.
Context {L : Type} `{Countable L} {P : Type} `{PolyRing P}.
Implicit Types (M : Matroid L) (E : list L) (fl : list (gset L)).
Implicit Types (F G : gset L).



End FYEmits.

(** ** The atom-free engine on a constructed ideal *)

Section AtomFreeEngine.
Context {L : Type} `{Countable L} {P : Type} `{PolyRing P}.
Implicit Types (M : Matroid L) (E : list L) (fl pf : list (gset L)).
Implicit Types (F G : gset L).

Lemma not_nested_sym F G : not_nested F G = not_nested G F.
Proof. unfold not_nested. by rewrite orb_comm. Qed.

(** X10. On a matroid with distinct groundset elements and distinct proper
    flats inside the groundset, the atom-free engine returns, and its
    output is, for every ordered pair [(F, G)] of flats: the product
    [x_F * x_G] when the two are equal or incomparable; when [F] is
    strictly inside [G], the term
    [x_F * s^rank(G) * s^(rank(G) - rank(F))] for the sum [s] of the
    variables of the flats strictly inside [F], unless [s] is zero;
    nothing when [G] is strictly inside [F]. *)
Theorem af_engine_output M :
  matroid_wf M →
  ∃ I, af_init M = Ret I
       ∧ ∀ generic,
           af_groebner_basis generic I ""
           = Ret (PySequence (af_engine_described M (proper_flats M))).
Proof.
  intros Hwf.
  destruct (af_generators_described_aux M Hwf) as (I & Hinit & HM & _).
  destruct Hwf as [HE Hnd Hsub]. set (pf := proper_flats M) in *.
  assert (af_flats_generator I
          = dict_of (zip pf (ring_gens (P:=P) (length pf)))) as Hd.
  { unfold af_init in Hinit. fold pf in Hinit.
    destruct (build_flats_containing _ _) as [fc|e]; [|done].
    rewrite py_bind_Ret in Hinit.
    destruct (af_gens_constructor _ _ _ _) as [g|e]; [|done].
    rewrite py_bind_Ret in Hinit. by injection Hinit as <-. }
  pose proof (engine_flats_sublist pf) as Hfl.
  assert (∀ F, F ∈ engine_flats pf → F ∈ pf) as Hin.
  { intros F HF. by eapply elem_of_sublist. }
  exists I. split; [done|]. intros generic.
  unfold af_groebner_basis, af_combinatorial. cbn [String.eqb].
  rewrite HM, Hd. fold pf.
  fold (engine_flats pf).
  rewrite (collect_Ret_flat_map _
    (λ F, flat_map
      (λ G, if bool_decide (F = G ∨ incomparable F G)
            then [pmul (flat_var pf F) (flat_var pf G)]
            else if bool_decide (F ⊂ G)
            then (if p_is_zero (sum_below pf (engine_flats pf) F) then []
                  else [pmul (pmul (flat_var pf F)
                                   (ppow (sum_below pf (engine_flats pf) F)
                                         (rank M G)))
                             (ppow (sum_below pf (engine_flats pf) F)
                                   (rank M G - rank M F))])
            else [])
      (engine_flats pf))); [done|].
  intros F HF. apply collect_Ret_flat_map. intros G HG.
  fold (not_nested G F). rewrite (not_nested_sym G F).
  rewrite (flats_dict_get pf F Hnd (Hin F HF)).
  rewrite (flats_dict_get pf G Hnd (Hin G HG)).
  rewrite (sum_over_flats pf _ (engine_flats pf) Hnd Hin).
  assert (psum (flat_var pf <$> filter (λ Hf, flat_lt Hf F) (engine_flats pf))
          = sum_below (P:=P) pf (engine_flats pf) F) as ->.
  { unfold sum_below. do 2 f_equal. apply filter_ext_elem.
    intros G' _. unfold flat_lt. by rewrite bool_decide_spec. }
  destruct (bool_decide_reflect (F = G ∨ incomparable F G)) as [Hd'|Hd'].
  - apply not_nested_iff in Hd'. apply Is_true_eq_true in Hd'.
    by rewrite Hd'.
  - rewrite <- not_nested_iff in Hd'. apply Is_true_false in Hd'.
    rewrite Hd'. cbn [negb]. unfold flat_lt.
    destruct (bool_decide (F ⊂ G)); [|done].
    rewrite py_bind_Ret. by destruct (p_is_zero _).
Qed.
End AtomFreeEngine.

(** ** The further statements at concrete inputs *)

Module MoreRuns.
Import Examples Strays.

Lemma nonaug_product_branch_witness :
  NoDup [({[0%nat]} : gset nat); {[1%nat]}]
  ∧ adjacent_same_len (sorted_by_len [({[0%nat]} : gset nat); {[1%nat]}])
    = true
  ∧ ¬ is_chain [({[0%nat]} : gset nat); {[1%nat]}]
  ∧ nonaug_subset_terms (na_flats_generator I_cycle3)
      [{[0%nat]}; {[1%nat]}; {[2%nat]}] [] [{[0%nat]}; {[1%nat]}]
    = (term ← product_of (na_flats_generator I_cycle3)
                [{[0%nat]}; {[1%nat]}];
       Ret [term]).
Proof.
  assert (NoDup [({[0%nat]} : gset nat); {[1%nat]}]) as Hnd.
  { refine (bool_decide_unpack _ _). by vm_compute. }
  assert (adjacent_same_len
            (sorted_by_len [({[0%nat]} : gset nat); {[1%nat]}]) = true)
    as Hadj by (by vm_compute).
  split; [exact Hnd|]. split; [exact Hadj|].
  exact (nonaug_product_branch_sound (na_flats_generator I_cycle3)
           [{[0%nat]}; {[1%nat]}; {[2%nat]}] []
           [{[0%nat]}; {[1%nat]}] Hnd Hadj).
Defined.

Lemma chain_of_two : is_chain [({[0%nat]} : gset nat); {[0%nat; 1%nat]}].
Proof.
  intros F G HF HG.
  apply elem_of_cons in HF as [->|HF%list_elem_of_singleton];
    apply elem_of_cons in HG as [->|HG%list_elem_of_singleton];
    subst; set_solver.
Qed.

Lemma nonaug_chain_witness :
  NoDup [({[0%nat]} : gset nat); {[0%nat; 1%nat]}]
  ∧ is_chain [({[0%nat]} : gset nat); {[0%nat; 1%nat]}]
  ∧ (2 ≤ length [({[0%nat]} : gset nat); {[0%nat; 1%nat]}])%nat
  ∧ nonaug_subset_terms (P:=ZPoly.poly)
      [({[0%nat]}, ZPoly.gen 0); ({[0%nat; 1%nat]}, ZPoly.gen 1)]
      [{[0%nat]}; {[0%nat; 1%nat]}]
      [({[0%nat]}, 1%Z); ({[0%nat; 1%nat]}, 2%Z)]
      [{[0%nat]}; {[0%nat; 1%nat]}]
    = Ret [].
Proof.
  assert (NoDup [({[0%nat]} : gset nat); {[0%nat; 1%nat]}]) as Hnd.
  { refine (bool_decide_unpack _ _). by vm_compute. }
  assert (2 ≤ length [({[0%nat]} : gset nat); {[0%nat; 1%nat]}])%nat
    as Hlen by (cbn; lia).
  split; [exact Hnd|]. split; [exact chain_of_two|]. split; [exact Hlen|].
  exact (nonaug_chain_contributes_nothing _ _ _ _ Hnd chain_of_two Hlen).
Defined.

Lemma M_stray_flats :
  ¬ Forall (λ F : gset nat, F ⊆ list_to_set (groundset M_stray))
           (proper_flats M_stray).
Proof. refine (bool_decide_unpack _ _). by vm_compute. Qed.

Lemma inconsistent_flats_witness :
  ¬ Forall (λ F : gset nat, F ⊆ list_to_set (groundset M_stray))
           (proper_flats M_stray)
  ∧ nonaug_init (P:=ZPoly.poly) M_stray = Raise KeyError
  ∧ fy_init (P:=ZPoly.poly) M_stray = Raise KeyError
  ∧ af_init (P:=ZPoly.poly) M_stray = Raise KeyError.
Proof.
  split; [exact M_stray_flats|].
  exact (inconsistent_flats_raise_KeyError (P:=ZPoly.poly) M_stray
           M_stray_flats).
Defined.

Lemma af_generators_witness :
  matroid_wf M_abc
  ∧ ∃ I, af_init (P:=ZPoly.poly) M_abc = Ret I
         ∧ af_flats I = proper_flats M_abc
         ∧ af_gens I
           = af_gens_described (groundset M_abc) (proper_flats M_abc).
Proof.
  split; [exact Runs.M_abc_wf|].
  exact (af_generators_described (P:=ZPoly.poly) M_abc Runs.M_abc_wf).
Defined.

Lemma flats_generator_registry_witness :
  matroid_wf M_abc
  ∧ ∃ I J,
      nonaug_init (P:=ZPoly.poly) M_abc = Ret I ∧ af_init M_abc = Ret J
      ∧ af_flats_generator_method J = nonaug_flats_generator I
      ∧ dict_keys (nonaug_flats_generator I) = proper_flats M_abc
      ∧ ∀ F, dict_get (nonaug_flats_generator I) F
             = if decide (F ∈ proper_flats M_abc)
               then Ret (flat_var (proper_flats M_abc) F)
               else Raise KeyError.
Proof.
  split; [exact Runs.M_abc_wf|].
  exact (flats_generator_registry (P:=ZPoly.poly) M_abc Runs.M_abc_wf).
Defined.

Lemma fy_flats_generator_registry_witness :
  matroid_wf M_abc
  ∧ ∃ I, fy_init (P:=ZPoly.poly) M_abc = Ret I
         ∧ dict_keys (fy_flats_generator_method I)
           = (inl <$> groundset M_abc) ++ (inr <$> proper_flats M_abc)
         ∧ (∀ x, dict_get (fy_flats_generator_method I) (inl x)
                 = if decide (x ∈ groundset M_abc)
                   then Ret (fy_element_var (groundset M_abc) x)
                   else Raise KeyError)
         ∧ (∀ F, dict_get (fy_flats_generator_method I) (inr F)
                 = if decide (F ∈ proper_flats M_abc)
                   then Ret (fy_flat_var (groundset M_abc)
                               (proper_flats M_abc) F)
                   else Raise KeyError)
         ∧ (∀ x F, x ∈ groundset M_abc → F ∈ proper_flats M_abc →
                   (index_of x (groundset M_abc)
                    < length (groundset M_abc)
                      + index_of F (proper_flats M_abc))%nat).
Proof.
  split; [exact Runs.M_abc_wf|].
  exact (fy_flats_generator_registry (P:=ZPoly.poly) M_abc Runs.M_abc_wf).
Defined.

Lemma nonaug_engine_witness :
  matroid_wf M_abc
  ∧ ∃ I gb rest,
      nonaug_init (P:=ZPoly.poly) M_abc = Ret I
      ∧ (∀ generic,
           nonaug_groebner_basis generic I "" = Ret (PySequence gb))
      ∧ gb = nonaug_empty_subset_terms M_abc (proper_flats M_abc) ++ rest.
Proof.
  split; [exact Runs.M_abc_wf|].
  exact (nonaug_engine_returns (P:=ZPoly.poly) M_abc Runs.M_abc_wf).
Defined.


(** On the matroid of rank 1 on one element the ring of the presentation
    of Feitchner and Yuzvinsky has the one variable [A0]: the loops build
    the empty list and the method raises when it builds the sequence. *)
Lemma fy_engine_one_variable :
  fy_init M_point = Ret FY_point
  ∧ fy_ring FY_point = 1%nat
  ∧ fy_combinatorial FY_point = Ret []
  ∧ ∀ generic,
      fy_groebner_basis generic FY_point "" = Raise NotImplementedError.
Proof.
  split; [exact Runs.FY_point_init|]. split; [reflexivity|].
  split; [by vm_compute|]. intros generic. by vm_compute.
Qed.

Lemma af_engine_witness :
  matroid_wf M_abc
  ∧ ∃ I, af_init (P:=ZPoly.poly) M_abc = Ret I
         ∧ ∀ generic,
             af_groebner_basis generic I ""
             = Ret (PySequence
                      (af_engine_described M_abc (proper_flats M_abc))).
Proof.
  split; [exact Runs.M_abc_wf|].
  exact (af_engine_output (P:=ZPoly.poly) M_abc Runs.M_abc_wf).
Defined.
End MoreRuns.
